(** * Sqrat utilities: the error registry and the shared pointer

    A shallow embedding of [include/sqrat/sqratUtil.h]:

    - [Squirrel]: the part of the Squirrel C API that [Error::FormatTypeError]
      calls (a value stack with [sq_typeof], [sq_tostring], [sq_getstring]
      and [sq_pop]);
    - [Error]: the class [Sqrat::Error], a [std::map] from VM handles to
      messages, passed explicitly as state;
    - [SharedPtr]: the class template [Sqrat::SharedPtr<T>], over a store
      holding the handle objects, the [unsigned int] reference counters
      allocated with [new], the live pointees and a log of every
      [delete m_Ptr] that was executed.  The member templates over a second
      pointee type [U] repeat the bodies of the members for [T] around a
      [static_cast] and are not repeated here;
    - [Registry]: sequences of calls on the error registry;
    - [Unicode]: the two string conversions compiled under [SQUNICODE];
    - [Ownership]: the invariant that makes the counters of [SharedPtr]
      count, and the calls that keep it;
    - [Pointee]: the members of [SharedPtr] over pointees whose destructors
      act on the store themselves.

    Pointers are addresses in [N], the null pointer being [0]. *)

From stdpp Require Import gmap strings list fin_maps.

Local Open Scope string_scope.

(** ** Machine data *)

(** [NULL] of [<cstddef>]. *)
Definition NULL : N := 0%N.

(** [HSQUIRRELVM] is a pointer to the VM structure; the registry uses it
    only as a key. *)
Abbreviation HSQUIRRELVM := N (only parsing).

(** What a [const SQChar*] denotes as a C string: the characters up to the
    first NUL.  A Squirrel string has a length of its own and may contain
    NUL characters; C++ code that takes it through a character pointer
    ([string + const SQChar*]) sees this prefix only. *)
Fixpoint c_str (s : string) : string :=
  match s with
  | EmptyString => EmptyString
  | String c rest => if Ascii.eqb c Ascii.zero then EmptyString else String c (c_str rest)
  end.

Fixpoint contains_NUL (s : string) : bool :=
  match s with
  | EmptyString => false
  | String c rest => Ascii.eqb c Ascii.zero || contains_NUL rest
  end.

(** A type name with a NUL character in it: [i], [n], NUL, [t]. *)
Definition name_with_NUL : string :=
  "in" +:+ String Ascii.zero "t".

(** ** The Squirrel value stack *)

Module Squirrel.

(** Modelled from the spec: [squirrel.h] and the interpreter behind it are
    not part of this unit.  [FormatTypeError] sees the interpreter only
    through the stack of the VM and four API calls, so an object is
    modelled by what those calls observe of it: a string object carries its
    text; any other object carries the name its type lookup yields
    ([None] when the lookup fails, as when a [_typeof] metamethod raises)
    and the text [sq_tostring] gives for it. *)
Inductive SQObject : Type :=
| SQString (s : string)
| SQOther (type_name : option string) (text : string).

(** The value stack of one VM, top of the stack first. *)
Record SQVM : Type := mkVM { stack : list SQObject }.

Abbreviation SQInteger := Z (only parsing).
Abbreviation SQRESULT := Z (only parsing).

(** [#define SQ_OK (0)], [#define SQ_ERROR (-1)],
    [#define SQ_SUCCEEDED(res) (res>=0)] *)
Definition SQ_OK : SQRESULT := 0%Z.
Definition SQ_ERROR : SQRESULT := (-1)%Z.
Definition SQ_SUCCEEDED (res : SQRESULT) : bool := (0 <=? res)%Z.

(** The stack slot an index names: [1] is the bottom of the stack, [-1]
    the top; [0] and positions outside the stack name nothing. *)
Definition stack_get (v : SQVM) (idx : SQInteger) : option SQObject :=
  if (1 <=? idx)%Z then rev (stack v) !! Z.to_nat (idx - 1)
  else if (idx <=? -1)%Z then stack v !! Z.to_nat (- idx - 1)
  else None.

(** The type lookup of the interpreter. *)
Definition TypeOf (o : SQObject) : option SQObject :=
  match o with
  | SQString _ => Some (SQString "string")
  | SQOther (Some name) _ => Some (SQString name)
  | SQOther None _ => None
  end.

Definition ToString (o : SQObject) : string :=
  match o with
  | SQString s => s
  | SQOther _ text => text
  end.

(** [sq_typeof(v, idx)]: pushes the type name of the value at [idx]; on
    failure pushes nothing and returns [SQ_ERROR]. *)
Definition sq_typeof (v : SQVM) (idx : SQInteger) : SQRESULT * SQVM :=
  match stack_get v idx with
  | Some o =>
      match TypeOf o with
      | Some res => (SQ_OK, mkVM (res :: stack v))
      | None => (SQ_ERROR, v)
      end
  | None => (SQ_ERROR, v)
  end.

(** [sq_tostring(v, idx)]: pushes the value at [idx] converted to a
    string. *)
Definition sq_tostring (v : SQVM) (idx : SQInteger) : SQRESULT * SQVM :=
  match stack_get v idx with
  | Some o => (SQ_OK, mkVM (SQString (ToString o) :: stack v))
  | None => (SQ_ERROR, v)
  end.

(** [sq_getstring(v, idx, &c)]: stores the text of the string at [idx] in
    [c]; when the value is not a string, returns [SQ_ERROR] and leaves [c]
    as it was.  [c] is [None] while the C variable is uninitialised. *)
Definition sq_getstring (v : SQVM) (idx : SQInteger) (c : option string)
  : SQRESULT * option string :=
  match stack_get v idx with
  | Some (SQString s) => (SQ_OK, Some s)
  | _ => (SQ_ERROR, c)
  end.

(** [sq_pop(v, nelemstopop)] *)
Definition sq_pop (v : SQVM) (nelemstopop : SQInteger) : SQVM :=
  mkVM (drop (Z.to_nat nelemstopop) (stack v)).

End Squirrel.

(** ** The error registry *)

Module Error.

(** [std::map< HSQUIRRELVM, string > errMap] *)
Abbreviation errMap_t := (gmap N string) (only parsing).

(** [std::map::operator[]]: a reference to the value stored under [vm],
    after inserting a value-initialised (empty) string when the key is
    absent.  Returns the value read and the map as left behind. *)
Definition subscript (vm : HSQUIRRELVM) (errMap : errMap_t) : string * errMap_t :=
  match errMap !! vm with
  | Some s => (s, errMap)
  | None => (EmptyString, <[vm := EmptyString]> errMap)
  end.

(** [void Clear(HSQUIRRELVM vm) { errMap.erase(vm); }] *)
Definition Clear (vm : HSQUIRRELVM) (errMap : errMap_t) : errMap_t :=
  delete vm errMap.

(** [string Message(HSQUIRRELVM vm)]:
    [string err = errMap[vm]; errMap.erase(vm); return err;] *)
Definition Message (vm : HSQUIRRELVM) (errMap : errMap_t) : string * errMap_t :=
  let '(err, errMap1) := subscript vm errMap in
  (err, delete vm errMap1).

(** [bool Occurred(HSQUIRRELVM vm)]:
    [return errMap.find(vm) != errMap.end();] *)
Definition Occurred (vm : HSQUIRRELVM) (errMap : errMap_t) : bool :=
  match errMap !! vm with
  | Some _ => true
  | None => false
  end.

(** [void Throw(HSQUIRRELVM vm, const string& err)]:
    [if (errMap.find(vm) == errMap.end()) { errMap[vm] = err; }] *)
Definition Throw (vm : HSQUIRRELVM) (err : string) (errMap : errMap_t) : errMap_t :=
  match errMap !! vm with
  | None => <[vm := err]> (snd (subscript vm errMap))
  | Some _ => errMap
  end.

(** [static string FormatTypeError(HSQUIRRELVM vm, SQInteger idx,
    const string& expectedType)].  The VM is threaded through; the text is
    [None] if the function came to read [actualType] uninitialised.
    [actualType] is a [const SQChar*], so [err + ", got " + actualType]
    appends it as a C string. *)
Definition FormatTypeError (vm : Squirrel.SQVM) (idx : Z) (expectedType : string)
  : option string * Squirrel.SQVM :=
  let err := ("wrong type (" +:+ expectedType) +:+ " expected" in
  let '(res, vm) := Squirrel.sq_typeof vm idx in
  let '(err, vm) :=
    if Squirrel.SQ_SUCCEEDED res then
      let actualType : option string := None in
      let '(_, vm) := Squirrel.sq_tostring vm (-1) in
      let '(_, actualType) := Squirrel.sq_getstring vm (-1) actualType in
      let vm := Squirrel.sq_pop vm 1 in
      ((fun a => ((err +:+ ", got ") +:+ c_str a) +:+ ")") <$> actualType, vm)
    else
      (Some (err +:+ ", got unknown)"), vm) in
  let vm := Squirrel.sq_pop vm 1 in
  (err, vm).

End Error.


(** ** The shared pointer *)

Module SharedPtr.

(** The two data members of a [SharedPtr<T>] object:
    [T* m_Ptr; unsigned int* m_RefCount;] *)
Record t : Type := mk { m_Ptr : N; m_RefCount : N }.

(** The memory the class works on.
    - [handles]: the [SharedPtr] objects alive, by their address ([this]);
    - [counters]: the [unsigned int] cells obtained from [new] and not yet
      deleted, with their contents;
    - [pointees]: the objects of type [T] obtained from [new] and not yet
      deleted;
    - [deleted]: every [delete m_Ptr] executed so far, latest first (the
      destructor of the pointee ran once for each entry). *)
Record Store : Type := mkStore {
  handles : gmap N t;
  counters : gmap N Z;
  pointees : gset N;
  deleted : list N;
}.

(** [unsigned int] arithmetic is modulo [2^32]. *)
Definition UINT_MODULUS : Z := (2 ^ 32)%Z.
Definition wrap (z : Z) : Z := (z mod UINT_MODULUS)%Z.

(** *** Primitive memory operations

    An operation is [None] where C++ leaves the behaviour undefined:
    reading or writing through a pointer to no live cell, deleting what is
    not a live object. *)

Definition set_handle (this : N) (h : t) (s : Store) : Store :=
  mkStore (<[this := h]> (handles s)) (counters s) (pointees s) (deleted s).

Definition drop_handle (this : N) (s : Store) : Store :=
  mkStore (delete this (handles s)) (counters s) (pointees s) (deleted s).

(** [*rc] *)
Definition load (rc : N) (s : Store) : option Z := counters s !! rc.

(** [*rc = v] *)
Definition store (rc : N) (v : Z) (s : Store) : option Store :=
  match counters s !! rc with
  | Some _ => Some (mkStore (handles s) (<[rc := v]> (counters s)) (pointees s) (deleted s))
  | None => None
  end.

(** [new unsigned int], when the allocator hands out the cell at [rc]. *)
Definition new_uint (rc : N) (s : Store) : Store :=
  mkStore (handles s) (<[rc := 0%Z]> (counters s)) (pointees s) (deleted s).

(** [delete rc] for a counter cell. *)
Definition delete_uint (rc : N) (s : Store) : option Store :=
  match counters s !! rc with
  | Some _ => Some (mkStore (handles s) (delete rc (counters s)) (pointees s) (deleted s))
  | None => None
  end.

(** [delete p] for a pointee: runs its destructor and frees it. *)
Definition delete_obj (p : N) (s : Store) : option Store :=
  if decide (p ∈ pointees s)
  then Some (mkStore (handles s) (counters s) (pointees s ∖ {[p]}) (p :: deleted s))
  else None.

(** *** Observers (const member functions) *)

(** [T* Get() const { return m_Ptr; }] *)
Definition Get (h : t) : N := m_Ptr h.

(** [operator bool() const { return m_Ptr != NULL; }] *)
Definition operator_bool (h : t) : bool := negb (m_Ptr h =? NULL)%N.

(** [bool operator!() const { return m_Ptr == NULL; }] *)
Definition operator_not (h : t) : bool := (m_Ptr h =? NULL)%N.


(** What a call of a function that starts with [assert] comes to. *)
Inductive outcome : Type :=
| Returned (p : N)
| AssertionFailed.

(** [T& operator*() const { assert(m_Ptr != NULL); return *m_Ptr; }]
    The reference returned is given by the address of its object. *)
Definition operator_star (h : t) : outcome :=
  if negb (m_Ptr h =? NULL)%N then Returned (m_Ptr h) else AssertionFailed.

(** [T* operator->() const { assert(m_Ptr != NULL); return m_Ptr; }] *)
Definition operator_arrow (h : t) : outcome :=
  if negb (m_Ptr h =? NULL)%N then Returned (m_Ptr h) else AssertionFailed.

(** *** Member functions that change the store *)

(** [void Reset()] *)
Definition Reset (this : N) (s : Store) : option Store :=
  h ← handles s !! this;
  if negb (m_Ptr h =? NULL)%N then
    c ← load (m_RefCount h) s;
    if (c =? 1)%Z then
      s ← delete_obj (m_Ptr h) s;
      s ← delete_uint (m_RefCount h) s;
      Some (set_handle this (mk NULL NULL) s)
    else
      store (m_RefCount h) (wrap (c - 1)) s
  else Some s.

(** [SharedPtr() : m_Ptr(NULL), m_RefCount(NULL) {}] *)
Definition SharedPtr_default (this : N) (s : Store) : Store :=
  set_handle this (mk NULL NULL) s.

(** [void Init(T* ptr)]; [rc] is the cell [new unsigned int] returns. *)
Definition Init (this : N) (ptr : N) (rc : N) (s : Store) : option Store :=
  s ← Reset this s;
  h ← handles s !! this;
  let s := set_handle this (mk ptr (m_RefCount h)) s in
  let s := new_uint rc s in
  let s := set_handle this (mk ptr rc) s in
  store rc 1 s.

(** [SharedPtr(T* ptr) { Init(ptr); }]  There is no member initialiser:
    [Init] starts from whatever the storage of the new object holds,
    [junk]. *)
Definition SharedPtr_ptr (junk : t) (this : N) (ptr : N) (rc : N) (s : Store)
  : option Store :=
  Init this ptr rc (set_handle this junk s).

(** The body shared by the copy constructor and the assignment:
    [if (copy.Get() != NULL) { m_Ptr = copy.Get();
       m_RefCount = copy.m_RefCount; *m_RefCount += 1; }
     else { m_Ptr = NULL; m_RefCount = NULL; }] *)
Definition share (this copy : N) (s : Store) : option Store :=
  c ← handles s !! copy;
  if negb (Get c =? NULL)%N then
    let s := set_handle this (mk (Get c) (m_RefCount c)) s in
    n ← load (m_RefCount c) s;
    store (m_RefCount c) (wrap (n + 1)) s
  else
    Some (set_handle this (mk NULL NULL) s).

(** [SharedPtr(const SharedPtr<T>& copy)] *)
Definition SharedPtr_copy (this copy : N) (s : Store) : option Store :=
  share this copy s.

(** [~SharedPtr() { Reset(); }], after which the object is gone. *)
Definition destroy (this : N) (s : Store) : option Store :=
  s ← Reset this s;
  Some (drop_handle this s).

(** [SharedPtr<T>& operator=(const SharedPtr<T>& copy)] *)
Definition operator_assign (this copy : N) (s : Store) : option Store :=
  if decide (this ≠ copy) then
    s ← Reset this s;
    share this copy s
  else Some s.

(** *** Programs: sequences of member calls *)

Inductive call : Type :=
| CallDefault (this : N)
| CallFromPtr (junk : t) (this ptr rc : N)
| CallCopy (this copy : N)
| CallAssign (this copy : N)
| CallReset (this : N)
| CallDestroy (this : N).

Definition exec (c : call) (s : Store) : option Store :=
  match c with
  | CallDefault this => Some (SharedPtr_default this s)
  | CallFromPtr junk this ptr rc => SharedPtr_ptr junk this ptr rc s
  | CallCopy this copy => SharedPtr_copy this copy s
  | CallAssign this copy => operator_assign this copy s
  | CallReset this => Reset this s
  | CallDestroy this => destroy this s
  end.

Fixpoint run (cs : list call) (s : Store) : option Store :=
  match cs with
  | [] => Some s
  | c :: cs => s ← exec c s; run cs s
  end.

(** The store before any handle exists, with the objects in [objs] already
    allocated by the caller. *)
Definition initial (objs : gset N) : Store := mkStore ∅ ∅ objs [].

(** How many times [p] was destroyed. *)
Definition destructions (p : N) (s : Store) : nat :=
  length (filter (λ q, q = p) (deleted s)).

(** The programs of the examples: a handle at address 100 made from the
    pointee 7, its counter in cell 50, and copies of it. *)
Definition two_handles : list call :=
  [CallFromPtr (mk NULL NULL) 100 7 50; CallCopy 101 100]%N.

Definition four_handles : list call :=
  [CallFromPtr (mk NULL NULL) 100 7 50;
   CallCopy 101 100; CallCopy 102 100; CallCopy 103 100]%N.

(** A handle at 102 on the pointee 8, and a copy of it at 101 that has been
    destroyed again: the storage at 101 is left holding the members of the
    copy. *)
Definition stale_storage : list call :=
  [CallFromPtr (mk NULL NULL) 102 8 50; CallCopy 101 102; CallDestroy 101]%N.

(** [sharing P rc A s]: the handles at the addresses in [A] all hold the
    live pointee [P] and the counter cell [rc], and the cell contains the
    number of those handles. *)
Definition sharing (P rc : N) (A : gset N) (s : Store) : Prop :=
  P <> NULL /\ P ∈ pointees s /\
  (forall a, a ∈ A -> handles s !! a = Some (mk P rc)) /\
  counters s !! rc = Some (Z.of_nat (size A)) /\
  (Z.of_nat (size A) < UINT_MODULUS)%Z.

(** The body of [operator=] without its guard [this != &copy]. *)
Definition release_then_share (this copy : N) (s : Store) : option Store :=
  s ← Reset this s;
  share this copy s.

End SharedPtr.

(** ** Sequences of registry calls *)

Module Registry.

(** A call of one of the three member functions that change [errMap]. *)
Inductive op : Type :=
| OpThrow (vm : N) (err : string)
| OpClear (vm : N)
| OpMessage (vm : N).

(** The map a call leaves behind (the text [Message] returns is dropped). *)
Definition apply (errMap : gmap N string) (o : op) : gmap N string :=
  match o with
  | OpThrow vm err => Error.Throw vm err errMap
  | OpClear vm => Error.Clear vm errMap
  | OpMessage vm => snd (Error.Message vm errMap)
  end.

Definition apply_all (errMap : gmap N string) (l : list op) : gmap N string :=
  foldl apply errMap l.

(** Whether a call removes the entry of [vm]. *)
Definition drains (vm : N) (o : op) : bool :=
  match o with
  | OpThrow _ _ => false
  | OpClear vm' => bool_decide (vm' = vm)
  | OpMessage vm' => bool_decide (vm' = vm)
  end.

End Registry.

(** ** The string conversions compiled under [SQUNICODE] *)

Module Unicode.

(** What the C++ implementation defines about the two character types:
    whether [char] is signed, whether [wchar_t] is signed, and the width of
    [wchar_t] in bits ([char] has 8).  On Linux/x86 these are
    [true, true, 32], with MSVC [true, false, 16]. *)
Record Platform : Type := mkPlatform {
  char_signed : bool;
  wchar_signed : bool;
  wchar_bits : Z;
}.

(** The values of an integer type of the given signedness and width. *)
Definition in_range (signed : bool) (bits : Z) (z : Z) : Prop :=
  if signed then (- 2 ^ (bits - 1) <= z < 2 ^ (bits - 1))%Z
  else (0 <= z < 2 ^ bits)%Z.

(** Integral conversion to such a type: the value of the type congruent to
    the source modulo [2 ^ bits]. *)
Definition convert (signed : bool) (bits : Z) (z : Z) : Z :=
  let m := (z mod 2 ^ bits)%Z in
  if signed && (2 ^ (bits - 1) <=? m)%Z then (m - 2 ^ bits)%Z else m.

(** A [std::string] is the list of its [char] values, a [std::wstring] the
    list of its [wchar_t] values. *)

(** [static std::wstring ascii_string_to_wstring(const std::string& str)
    { return std::wstring(str.begin(), str.end()); }] *)
Definition ascii_string_to_wstring (pf : Platform) (str : list Z) : list Z :=
  map (convert (wchar_signed pf) (wchar_bits pf)) str.

(** [static std::string ascii_wstring_to_string(const std::wstring& wstr)
    { return std::string(wstr.begin(), wstr.end()); }] *)
Definition ascii_wstring_to_string (pf : Platform) (wstr : list Z) : list Z :=
  map (convert (char_signed pf) 8) wstr.

(** The two function pointers [string_to_wstring] and [wstring_to_string],
    initialised with the two functions above. *)
Definition string_to_wstring := ascii_string_to_wstring.
Definition wstring_to_string := ascii_wstring_to_string.

Definition linux : Platform := mkPlatform true true 32.
Definition msvc : Platform := mkPlatform true false 16.

End Unicode.

(** ** Ownership: the invariant behind the reference counters *)

Module Ownership.

Import SharedPtr.

(** Two handles can be compared member by member. *)
#[global] Instance t_eq_dec : EqDecision t.
Proof. solve_decision. Defined.

(** The addresses of the handles whose members are [P] and [rc]. *)
Definition holders (P rc : N) (s : Store) : gset N :=
  dom (filter (fun ah : N * t => ah.2 = mk P rc) (handles s)).

(** Some handle holds the pointee [P]. *)
Definition held (P : N) (s : Store) : Prop :=
  exists a h, handles s !! a = Some h /\ m_Ptr h = P.

(** A store in which the counters count.
    - [wf_owner]: the pointee of a non-empty handle is alive, and its counter
      cell holds the number of handles with the same two members;
    - [wf_pair]: non-empty handles have the same pointee exactly when they
      have the same counter cell;
    - [wf_room]: there are fewer handles than an [unsigned int] can count;
    - [wf_counter]: every counter cell allocated belongs to a non-empty
      handle;
    - [wf_deleted]: nothing was deleted twice, and what was deleted is not
      alive. *)
Record wf (s : Store) : Prop := mkWf {
  wf_owner : forall a h, handles s !! a = Some h -> m_Ptr h <> NULL ->
    m_Ptr h ∈ pointees s /\
    counters s !! m_RefCount h
      = Some (Z.of_nat (size (holders (m_Ptr h) (m_RefCount h) s)));
  wf_pair : forall a b ha hb,
    handles s !! a = Some ha -> handles s !! b = Some hb ->
    m_Ptr ha <> NULL -> m_Ptr hb <> NULL ->
    (m_Ptr ha = m_Ptr hb <-> m_RefCount ha = m_RefCount hb);
  wf_room : (Z.of_nat (size (handles s)) < UINT_MODULUS)%Z;
  wf_counter : forall rc c, counters s !! rc = Some c ->
    exists a h, handles s !! a = Some h /\ m_Ptr h <> NULL /\ m_RefCount h = rc;
  wf_deleted : NoDup (deleted s) /\ forall p, p ∈ deleted s -> p ∉ pointees s;
}.

(** From [s] to [s'] no pointee was lost: a pointee held in [s] is still
    held in [s'] or has been deleted, and what was deleted stays deleted. *)
Definition keeps (s s' : Store) : Prop :=
  (forall Q, Q <> NULL -> held Q s -> held Q s' \/ Q ∈ deleted s') /\
  (forall p, p ∈ deleted s -> p ∈ deleted s').

(** From [s] to [s'] nothing came from nowhere: a pointee held in [s'] was
    held in [s] or is one of [new], and what was deleted on the way was held
    in [s]. *)
Definition within (new : list N) (s s' : Store) : Prop :=
  (forall Q, Q <> NULL -> held Q s' -> held Q s \/ Q ∈ new) /\
  (forall p, p ∈ deleted s' ->
     p ∈ deleted s \/ (p <> NULL /\ (held p s \/ p ∈ new))).

(** There is room for one more handle. *)
Definition room (s : Store) : Prop :=
  (Z.of_nat (size (handles s)) + 1 < UINT_MODULUS)%Z.

(** The calls a program may make on a store without leaving defined
    behaviour.  Constructors run on storage that holds no live handle; the
    constructor from a pointer runs on storage whose [m_Ptr] bytes are null,
    and is given a live object that no handle holds yet and a counter cell
    that is not allocated; [Reset] is called on empty handles and sole
    owners only; the other members are called on live handles. *)
Definition valid_call (c : call) (s : Store) : Prop :=
  match c with
  | CallDefault this => handles s !! this = None /\ room s
  | CallFromPtr junk this ptr rc =>
      m_Ptr junk = NULL /\ handles s !! this = None /\ room s /\
      ptr <> NULL /\ ptr ∈ pointees s /\ ~ held ptr s /\
      counters s !! rc = None
  | CallCopy this copy =>
      handles s !! this = None /\ is_Some (handles s !! copy) /\ room s
  | CallAssign this copy =>
      is_Some (handles s !! this) /\ is_Some (handles s !! copy)
  | CallReset this =>
      exists h, handles s !! this = Some h /\
                (m_Ptr h = NULL \/ counters s !! m_RefCount h = Some 1%Z)
  | CallDestroy this => is_Some (handles s !! this)
  end.

(** Every call of the program is valid on the store it is made on. *)
Fixpoint valid_run (cs : list call) (s : Store) : Prop :=
  match cs with
  | [] => True
  | c :: cs => valid_call c s /\ forall s', exec c s = Some s' -> valid_run cs s'
  end.

(** The objects a program hands to constructors. *)
Fixpoint adopted (cs : list call) : list N :=
  match cs with
  | [] => []
  | CallFromPtr _ _ ptr _ :: cs => ptr :: adopted cs
  | _ :: cs => adopted cs
  end.

(** The empty store with the objects [objs] allocated. *)
Definition start (objs : gset N) : Store := initial objs.

(** A program that destroys every handle it made: a handle on the pointee
    7, a copy, a default-constructed handle assigned from the copy, and the
    three destructors. *)
Definition demo : list call :=
  [CallFromPtr (mk NULL NULL) 100 7 50; CallCopy 101 100; CallDefault 102;
   CallAssign 102 101; CallDestroy 100; CallDestroy 101; CallDestroy 102]%N.

(** The store [two_handles] leads to: two handles on the pointee 7. *)
Definition shared_store : Store :=
  mkStore {[ 100%N := mk 7 50; 101%N := mk 7 50 ]} {[ 50%N := 2%Z ]} {[ 7%N ]} [].

End Ownership.

(** ** Pointees with destructors of their own *)

Module Pointee.

Import SharedPtr.
Import Ownership.

(** [delete m_Ptr] runs the destructor of the pointee before the object is
    freed, and what that destructor does is up to the type [T]: if the
    pointee has [SharedPtr] members, they are destroyed with it.  The
    members below are those of [SharedPtr] again, over a function [dtor]
    that gives the effect of the destructor of each pointee on the store
    ([None] where it is undefined).  After [delete m_Ptr], [Reset] reads
    [m_RefCount] of [this] again, and [operator=] reads [copy]: either is
    undefined if the destructor has ended that handle. *)

(** [delete p], the destructor of [p] being [dtor p]. *)
Definition delete_obj_with (dtor : N -> Store -> option Store) (p : N) (s : Store)
  : option Store :=
  if decide (p ∈ pointees s) then
    s ← dtor p s;
    delete_obj p s
  else None.

(** [void Reset()] *)
Definition Reset_with (dtor : N -> Store -> option Store) (this : N) (s : Store)
  : option Store :=
  h ← handles s !! this;
  if negb (m_Ptr h =? NULL)%N then
    c ← load (m_RefCount h) s;
    if (c =? 1)%Z then
      s ← delete_obj_with dtor (m_Ptr h) s;
      h ← handles s !! this;
      s ← delete_uint (m_RefCount h) s;
      Some (set_handle this (mk NULL NULL) s)
    else
      store (m_RefCount h) (wrap (c - 1)) s
  else Some s.

(** [void Init(T* ptr)] *)
Definition Init_with (dtor : N -> Store -> option Store) (this ptr rc : N) (s : Store)
  : option Store :=
  s ← Reset_with dtor this s;
  h ← handles s !! this;
  let s := set_handle this (mk ptr (m_RefCount h)) s in
  let s := new_uint rc s in
  let s := set_handle this (mk ptr rc) s in
  store rc 1 s.

(** [SharedPtr(T* ptr) { Init(ptr); }] *)
Definition SharedPtr_ptr_with (dtor : N -> Store -> option Store) (junk : t)
    (this ptr rc : N) (s : Store) : option Store :=
  Init_with dtor this ptr rc (set_handle this junk s).

(** [~SharedPtr() { Reset(); }] *)
Definition destroy_with (dtor : N -> Store -> option Store) (this : N) (s : Store)
  : option Store :=
  s ← Reset_with dtor this s;
  Some (drop_handle this s).

(** [SharedPtr<T>& operator=(const SharedPtr<T>& copy)]: [copy] is read
    after [Reset()] has run. *)
Definition operator_assign_with (dtor : N -> Store -> option Store) (this copy : N)
    (s : Store) : option Store :=
  if decide (this ≠ copy) then
    s ← Reset_with dtor this s;
    share this copy s
  else Some s.

Definition exec_with (dtor : N -> Store -> option Store) (c : call) (s : Store)
  : option Store :=
  match c with
  | CallDefault this => Some (SharedPtr_default this s)
  | CallFromPtr junk this ptr rc => SharedPtr_ptr_with dtor junk this ptr rc s
  | CallCopy this copy => SharedPtr_copy this copy s
  | CallAssign this copy => operator_assign_with dtor this copy s
  | CallReset this => Reset_with dtor this s
  | CallDestroy this => destroy_with dtor this s
  end.

Fixpoint run_with (dtor : N -> Store -> option Store) (cs : list call) (s : Store)
  : option Store :=
  match cs with
  | [] => Some s
  | c :: cs => s ← exec_with dtor c s; run_with dtor cs s
  end.

(** Every call of the program is valid on the store it is made on. *)
Fixpoint valid_run_with (dtor : N -> Store -> option Store) (cs : list call) (s : Store)
  : Prop :=
  match cs with
  | [] => True
  | c :: cs =>
      valid_call c s /\ forall s', exec_with dtor c s = Some s' -> valid_run_with dtor cs s'
  end.

(** The destructors of the pointees leave the handles, the counters and the
    other pointees alone: the pointees have no [SharedPtr] members and their
    destructors call no member of a [SharedPtr]. *)
Definition plain (dtor : N -> Store -> option Store) : Prop :=
  forall p s, dtor p s = Some s.

(** The destructor of a plain pointee. *)
Definition plain_dtor (p : N) (s : Store) : option Store := Some s.

(** The destructors of a list whose node at 7 has the handle at address 200
    as its [next] member: deleting the node destroys that handle. *)
Definition node_dtor (p : N) (s : Store) : option Store :=
  if (p =? 7)%N then destroy 200 s else Some s.

(** [a = a->next] at the end of a list: the handle at 100 is the only owner
    of the node 7, whose [next] member, the handle at 200, is empty. *)
Definition advance_past_end : list call :=
  [CallFromPtr (mk NULL NULL) 100 7 50; CallDefault 200; CallAssign 100 200]%N.

End Pointee.

(** * Properties *)

(** ** The error registry

    Equations of the registry operations. *)

Lemma subscript_read (vm : N) (m : gmap N string) :
  fst (Error.subscript vm m) = default EmptyString (m !! vm).
Proof. unfold Error.subscript. by destruct (m !! vm). Qed.

Lemma Message_text (vm : N) (m : gmap N string) :
  fst (Error.Message vm m) = default EmptyString (m !! vm).
Proof. unfold Error.Message, Error.subscript. by destruct (m !! vm). Qed.

Lemma Message_map (vm : N) (m : gmap N string) :
  snd (Error.Message vm m) = delete vm m.
Proof.
  unfold Error.Message, Error.subscript.
  destruct (m !! vm) eqn:E; simpl; [done|].
  by rewrite delete_insert_eq.
Qed.

Lemma Throw_absent (vm : N) (err : string) (m : gmap N string) :
  m !! vm = None -> Error.Throw vm err m = <[vm := err]> m.
Proof.
  intros E. unfold Error.Throw, Error.subscript. rewrite E. simpl.
  by rewrite insert_insert_eq.
Qed.

Lemma Throw_present (vm : N) (err old : string) (m : gmap N string) :
  m !! vm = Some old -> Error.Throw vm err m = m.
Proof. intros E. unfold Error.Throw. by rewrite E. Qed.

Lemma Occurred_true (vm : N) (m : gmap N string) :
  Error.Occurred vm m = true <-> is_Some (m !! vm).
Proof.
  unfold Error.Occurred. destruct (m !! vm); split; done.
Qed.

Lemma Occurred_false (vm : N) (m : gmap N string) :
  Error.Occurred vm m = false <-> m !! vm = None.
Proof. unfold Error.Occurred. by destruct (m !! vm). Qed.

(** C3: [Message] is a draining read.  It returns the entry pending for [c],
    or the empty text when there is none; it removes that entry and no
    other; and [Occurred c] is false right after the call, in every case. *)
Theorem Message_is_draining_read (c : N) (m : gmap N string) :
  fst (Error.Message c m) = default EmptyString (m !! c) /\
  snd (Error.Message c m) = delete c m /\
  Error.Occurred c (snd (Error.Message c m)) = false.
Proof.
  split; [apply Message_text|]. split; [apply Message_map|].
  rewrite Message_map. apply Occurred_false, lookup_delete_eq.
Qed.

(** C2: first error wins.  When no entry exists for [c], [Throw c a] records
    [a]; a following [Throw c b] changes nothing; [Message c] then returns
    [a], and after it [Occurred c] is false. *)
Theorem Throw_first_error_wins (c : N) (a b : string) (m : gmap N string) :
  m !! c = None ->
  Error.Throw c a m !! c = Some a /\
  Error.Throw c b (Error.Throw c a m) = Error.Throw c a m /\
  fst (Error.Message c (Error.Throw c b (Error.Throw c a m))) = a /\
  Error.Occurred c (snd (Error.Message c (Error.Throw c b (Error.Throw c a m)))) = false.
Proof.
  intros Hnone.
  assert (Hrec : Error.Throw c a m !! c = Some a).
  { rewrite (Throw_absent _ _ _ Hnone). apply lookup_insert_eq. }
  assert (Hign : Error.Throw c b (Error.Throw c a m) = Error.Throw c a m).
  { exact (Throw_present _ _ _ _ Hrec). }
  repeat split; [exact Hrec | exact Hign | |].
  - rewrite Hign, Message_text, Hrec. reflexivity.
  - rewrite Message_map. apply Occurred_false, lookup_delete_eq.
Qed.

Lemma Throw_first_error_wins_witness :
  let m : gmap N string := {[ 2%N := "other" ]} in
  m !! 1%N = None /\
  fst (Error.Message 1 (Error.Throw 1 "b" (Error.Throw 1 "a" m))) = "a".
Proof.
  intros m. split; [reflexivity|].
  exact (proj1 (proj2 (proj2 (Throw_first_error_wins 1 "a" "b" m eq_refl)))).
Defined.

(** C8: [Clear c] removes the entry pending for [c], leaves the other
    entries alone and changes nothing when there is no entry.  It returns no
    text: after [Throw c a] and [Clear c], [Occurred c] is false and
    [Message c] returns the empty text. *)
Theorem Clear_discards_message (c : N) (a : string) (m : gmap N string) :
  Error.Clear c m !! c = None /\
  (forall c', c' <> c -> Error.Clear c m !! c' = m !! c') /\
  (m !! c = None -> Error.Clear c m = m) /\
  Error.Occurred c (Error.Clear c (Error.Throw c a m)) = false /\
  fst (Error.Message c (Error.Clear c (Error.Throw c a m))) = EmptyString.
Proof.
  unfold Error.Clear. split; [apply lookup_delete_eq|].
  split; [intros c' Hne; by apply lookup_delete_ne|].
  split; [apply delete_id|].
  split.
  - apply Occurred_false, lookup_delete_eq.
  - rewrite Message_text, lookup_delete_eq. reflexivity.
Qed.

Lemma Clear_discards_message_witness :
  let m : gmap N string := {[ 2%N := "other" ]} in
  m !! 1%N = None /\ Error.Clear 1 m = m /\ Error.Clear 1 m !! 2%N = m !! 2%N.
Proof.
  intros m.
  destruct (Clear_discards_message 1 "a" m) as (_ & Hother & Hnoop & _).
  split; [reflexivity|]. split; [exact (Hnoop eq_refl) | exact (Hother 2%N ltac:(discriminate))].
Defined.

(** C9: [Throw] on one context leaves every other context alone: for
    [c1 <> c2], the entry pending for [c2], and so [Occurred c2], is the
    same before and after [Throw c1 x]. *)
Theorem Throw_other_context_unchanged (c1 c2 : N) (x : string) (m : gmap N string) :
  c1 <> c2 ->
  Error.Throw c1 x m !! c2 = m !! c2 /\
  Error.Occurred c2 (Error.Throw c1 x m) = Error.Occurred c2 m.
Proof.
  intros Hne.
  assert (H : Error.Throw c1 x m !! c2 = m !! c2).
  { destruct (m !! c1) as [old|] eqn:E.
    - by rewrite (Throw_present _ _ _ _ E).
    - rewrite (Throw_absent _ _ _ E). by apply lookup_insert_ne. }
  split; [exact H|]. unfold Error.Occurred. by rewrite H.
Qed.

Lemma Throw_other_context_unchanged_witness :
  (1%N <> 2%N) /\
  Error.Occurred 2 (Error.Throw 1 "x" (∅ : gmap N string)) = Error.Occurred 2 (∅ : gmap N string).
Proof.
  split; [discriminate|].
  exact (proj2 (Throw_other_context_unchanged 1 2 "x" ∅ ltac:(discriminate))).
Defined.

(** ** The type error text *)

Lemma string_app_assoc (s1 s2 s3 : string) :
  (s1 +:+ s2) +:+ s3 = s1 +:+ (s2 +:+ s3).
Proof. induction s1 as [|ch s1 IH]; [reflexivity | exact (f_equal (String ch) IH)]. Qed.

Lemma stack_get_top (o : Squirrel.SQObject) (st : list Squirrel.SQObject) :
  Squirrel.stack_get (Squirrel.mkVM (o :: st)) (-1) = Some o.
Proof. reflexivity. Qed.

(** A successful [sq_typeof] leaves a string on top of the stack. *)
Lemma sq_typeof_pushes_string (vm vm1 : Squirrel.SQVM) (idx res : Z) :
  Squirrel.sq_typeof vm idx = (res, vm1) ->
  Squirrel.SQ_SUCCEEDED res = true ->
  exists name, vm1 = Squirrel.mkVM (Squirrel.SQString name :: Squirrel.stack vm).
Proof.
  unfold Squirrel.sq_typeof.
  destruct (Squirrel.stack_get vm idx) as [o|]; [|by intros [= <- <-]].
  destruct o as [s|[n|] text]; simpl; intros [= <- <-]; try done; by eexists.
Qed.

Lemma sq_typeof_result (vm : Squirrel.SQVM) (idx : Z) :
  fst (Squirrel.sq_typeof vm idx) = Squirrel.SQ_OK \/
  Squirrel.sq_typeof vm idx = (Squirrel.SQ_ERROR, vm).
Proof.
  unfold Squirrel.sq_typeof.
  destruct (Squirrel.stack_get vm idx) as [o|]; [|by right].
  destruct (Squirrel.TypeOf o); [by left | by right].
Qed.

(** The C++ expressions are left-nested sums; the texts they build. *)
Lemma got_text (expected actual : string) :
  ((((("wrong type (" +:+ expected) +:+ " expected") +:+ ", got ") +:+ actual) +:+ ")")
  = "wrong type (" +:+ expected +:+ " expected, got " +:+ actual +:+ ")".
Proof. by rewrite !string_app_assoc. Qed.

Lemma unknown_text (expected : string) :
  ((("wrong type (" +:+ expected) +:+ " expected") +:+ ", got unknown)")
  = "wrong type (" +:+ expected +:+ " expected, got unknown)".
Proof. by rewrite !string_app_assoc. Qed.

(** The two branches of [FormatTypeError], by the result of [sq_typeof]. *)
Lemma FormatTypeError_got (vm : Squirrel.SQVM) (idx : Z) (expected actual : string) :
  Squirrel.sq_typeof vm idx
    = (Squirrel.SQ_OK, Squirrel.mkVM (Squirrel.SQString actual :: Squirrel.stack vm)) ->
  Error.FormatTypeError vm idx expected
    = (Some ("wrong type (" +:+ expected +:+ " expected, got " +:+ c_str actual +:+ ")"),
       vm).
Proof.
  intros H. unfold Error.FormatTypeError. rewrite H.
  change (Squirrel.SQ_SUCCEEDED Squirrel.SQ_OK) with true. cbv beta iota zeta.
  unfold Squirrel.sq_tostring. rewrite stack_get_top. cbv beta iota zeta.
  unfold Squirrel.sq_getstring. rewrite stack_get_top. cbv beta iota zeta.
  rewrite <- got_text. destruct vm as [st]. reflexivity.
Qed.

Lemma FormatTypeError_unknown (vm : Squirrel.SQVM) (idx : Z) (expected : string) :
  Squirrel.sq_typeof vm idx = (Squirrel.SQ_ERROR, vm) ->
  fst (Error.FormatTypeError vm idx expected)
    = Some ("wrong type (" +:+ expected +:+ " expected, got unknown)").
Proof.
  intros H. unfold Error.FormatTypeError. rewrite H.
  change (Squirrel.SQ_SUCCEEDED Squirrel.SQ_ERROR) with false. cbv beta iota zeta.
  rewrite <- unknown_text. reflexivity.
Qed.

Lemma c_str_without_NUL (s : string) : contains_NUL s = false -> c_str s = s.
Proof.
  induction s as [|c s IH]; [done|]. simpl.
  destruct (Ascii.eqb c Ascii.zero); [done|]. simpl. intros H. by rewrite IH.
Qed.

(** C6, as the code has it.  If [sq_typeof] succeeds and leaves the type
    name [actual] on top of the stack, the text is exactly
    "wrong type (<expected> expected, got <actual>)" with [actual] read as a
    C string, that is up to its first NUL character; it is the whole of
    [actual] when [actual] contains no NUL.  If [sq_typeof] fails, the text
    is exactly "wrong type (<expected> expected, got unknown)".  A text is
    returned in every case. *)
Theorem FormatTypeError_text (vm : Squirrel.SQVM) (idx : Z) (expected : string) :
  (forall vm1 actual,
     Squirrel.sq_typeof vm idx = (Squirrel.SQ_OK, vm1) ->
     Squirrel.stack_get vm1 (-1) = Some (Squirrel.SQString actual) ->
     fst (Error.FormatTypeError vm idx expected)
       = Some ("wrong type (" +:+ expected +:+ " expected, got " +:+ c_str actual +:+ ")") /\
     (contains_NUL actual = false ->
      fst (Error.FormatTypeError vm idx expected)
        = Some ("wrong type (" +:+ expected +:+ " expected, got " +:+ actual +:+ ")"))) /\
  (forall vm1,
     Squirrel.sq_typeof vm idx = (Squirrel.SQ_ERROR, vm1) ->
     fst (Error.FormatTypeError vm idx expected)
       = Some ("wrong type (" +:+ expected +:+ " expected, got unknown)")) /\
  is_Some (fst (Error.FormatTypeError vm idx expected)).
Proof.
  assert (Hok : forall vm1 actual,
     Squirrel.sq_typeof vm idx = (Squirrel.SQ_OK, vm1) ->
     Squirrel.stack_get vm1 (-1) = Some (Squirrel.SQString actual) ->
     fst (Error.FormatTypeError vm idx expected)
       = Some ("wrong type (" +:+ expected +:+ " expected, got " +:+ c_str actual +:+ ")")).
  { intros vm1 actual Hty Htop.
    destruct (sq_typeof_pushes_string _ _ _ _ Hty eq_refl) as [name ->].
    rewrite stack_get_top in Htop. injection Htop as ->.
    by rewrite (FormatTypeError_got _ _ _ _ Hty). }
  assert (Herr : forall vm1,
     Squirrel.sq_typeof vm idx = (Squirrel.SQ_ERROR, vm1) ->
     fst (Error.FormatTypeError vm idx expected)
       = Some ("wrong type (" +:+ expected +:+ " expected, got unknown)")).
  { intros vm1 Hty. apply FormatTypeError_unknown.
    destruct (sq_typeof_result vm idx) as [Hr|Hr]; [|exact Hr].
    rewrite Hty in Hr. discriminate. }
  split; [|split; [exact Herr|]].
  - intros vm1 actual Hty Htop. split; [by apply (Hok vm1)|].
    intros Hnul. rewrite (Hok vm1 actual Hty Htop). by rewrite (c_str_without_NUL _ Hnul).
  - destruct (sq_typeof_result vm idx) as [Hr|Hr].
    + clear Hok Herr.
      destruct (Squirrel.sq_typeof vm idx) as [res vm1] eqn:Hty. simpl in Hr. subst res.
      destruct (sq_typeof_pushes_string _ _ _ _ Hty eq_refl) as [name ->].
      rewrite (FormatTypeError_got _ _ _ _ Hty). by eexists.
    + rewrite (Herr _ Hr). by eexists.
Qed.

(** The two texts of the specification's example: an integer where a string
    was expected, and an object whose type lookup fails. *)
Lemma FormatTypeError_text_witness :
  let vm := Squirrel.mkVM [Squirrel.SQOther None "?"; Squirrel.SQOther (Some "integer") "42"] in
  fst (Error.FormatTypeError vm 1 "string") = Some "wrong type (string expected, got integer)" /\
  fst (Error.FormatTypeError vm 2 "string") = Some "wrong type (string expected, got unknown)".
Proof.
  intros vm.
  destruct (FormatTypeError_text vm 1 "string") as (Hok & _ & _).
  destruct (FormatTypeError_text vm 2 "string") as (_ & Herr & _).
  split.
  - exact (proj2 (Hok _ "integer" eq_refl eq_refl) eq_refl).
  - exact (Herr _ eq_refl).
Defined.

(** C6 as it was stated does not hold of a type name that contains a NUL
    character: the lookup of the object's type succeeds with the name
    [name_with_NUL], and the text ends after "in", two characters short of
    the text with the whole name. *)
Lemma FormatTypeError_stops_at_NUL :
  let vm := Squirrel.mkVM [Squirrel.SQOther (Some name_with_NUL) "x"] in
  Squirrel.sq_typeof vm 1
    = (Squirrel.SQ_OK, Squirrel.mkVM (Squirrel.SQString name_with_NUL :: Squirrel.stack vm)) /\
  fst (Error.FormatTypeError vm 1 "string") = Some "wrong type (string expected, got in)" /\
  fst (Error.FormatTypeError vm 1 "string")
    <> Some ("wrong type (" +:+ "string" +:+ " expected, got " +:+ name_with_NUL +:+ ")").
Proof.
  intros vm. split; [reflexivity|]. split; [reflexivity|].
  vm_compute. discriminate.
Qed.

(** ** The shared pointer *)

Import SharedPtr.

(** *** One step of [Reset], by the case it takes *)

Lemma Reset_empty (this : N) (h : t) (s : Store) :
  handles s !! this = Some h -> m_Ptr h = NULL -> Reset this s = Some s.
Proof. intros Hh Hp. unfold Reset. rewrite Hh. simpl. by rewrite Hp. Qed.

Lemma Reset_sole (this P rc : N) (s : Store) :
  handles s !! this = Some (mk P rc) -> P <> NULL ->
  counters s !! rc = Some 1%Z -> P ∈ pointees s ->
  Reset this s
    = Some (mkStore (<[this := mk NULL NULL]> (handles s)) (delete rc (counters s))
              (pointees s ∖ {[P]}) (P :: deleted s)).
Proof.
  intros Hh Hp Hc Hlive. unfold Reset. rewrite Hh. simpl.
  destruct (N.eqb_spec P NULL) as [|_]; [done|]. simpl.
  unfold load. rewrite Hc. simpl.
  unfold delete_obj. rewrite decide_True by done. simpl.
  unfold delete_uint. simpl. by rewrite Hc.
Qed.

(** The counter goes down by one; the members are left as they were. *)
Lemma Reset_shared (this P rc : N) (c : Z) (s : Store) :
  handles s !! this = Some (mk P rc) -> P <> NULL ->
  counters s !! rc = Some c -> c <> 1%Z ->
  Reset this s
    = Some (mkStore (handles s) (<[rc := wrap (c - 1)]> (counters s))
              (pointees s) (deleted s)).
Proof.
  intros Hh Hp Hc Hne. unfold Reset. rewrite Hh. simpl.
  destruct (N.eqb_spec P NULL) as [|_]; [done|]. simpl.
  unfold load. rewrite Hc. simpl.
  destruct (Z.eqb_spec c 1) as [|_]; [done|].
  unfold store. by rewrite Hc.
Qed.

(** [Reset] neither creates nor removes a handle object. *)
Lemma Reset_keeps_object (this : N) (s s1 : Store) :
  Reset this s = Some s1 -> is_Some (handles s1 !! this).
Proof.
  unfold Reset. destruct (handles s !! this) as [h|] eqn:Hh; [simpl|done].
  destruct (negb (m_Ptr h =? NULL)%N); [|intros [= <-]; by rewrite Hh].
  destruct (load (m_RefCount h) s) as [c|]; [simpl|done].
  destruct (c =? 1)%Z.
  - destruct (delete_obj (m_Ptr h) s) as [s2|]; [simpl|done].
    destruct (delete_uint (m_RefCount h) s2) as [s3|]; [simpl|done].
    intros [= <-]. simpl. rewrite lookup_insert_eq. by eexists.
  - unfold store. destruct (counters s !! m_RefCount h); [|done].
    intros [= <-]. simpl. by rewrite Hh.
Qed.

(** C10: [Reset] on an empty handle changes nothing: the store it returns is
    the store it was given, so nothing is deleted, no counter is written and
    the handle is still empty.  The destructor of an empty handle is defined
    as well and only ends the handle object. *)
Theorem Reset_empty_is_noop (this : N) (h : t) (s : Store) :
  handles s !! this = Some h ->
  operator_bool h = false ->
  Reset this s = Some s /\
  destroy this s = Some (drop_handle this s).
Proof.
  intros Hh Hempty.
  assert (Hp : m_Ptr h = NULL).
  { unfold operator_bool in Hempty. by destruct (N.eqb_spec (m_Ptr h) NULL). }
  assert (Hr : Reset this s = Some s) by exact (Reset_empty _ _ _ Hh Hp).
  split; [exact Hr|]. unfold destroy. by rewrite Hr.
Qed.

Lemma Reset_empty_is_noop_witness :
  let s := SharedPtr_default 100 (mkStore ∅ {[ 50%N := 2%Z ]} {[ 7%N ]} []) in
  handles s !! 100%N = Some (mk NULL NULL) /\
  operator_bool (mk NULL NULL) = false /\
  Reset 100 s = Some s.
Proof.
  intros s. split; [reflexivity|]. split; [reflexivity|].
  exact (proj1 (Reset_empty_is_noop 100 (mk NULL NULL) s eq_refl eq_refl)).
Defined.

(** C5: dereferencing.  On a non-empty handle [operator*] and [operator->]
    pass their assertion and return the pointee, which is not null; on an
    empty handle both stop at the assertion. *)
Theorem dereference_contract (h : t) :
  (operator_bool h = true ->
     operator_star h = Returned (Get h) /\
     operator_arrow h = Returned (Get h) /\
     Get h <> NULL) /\
  (operator_bool h = false ->
     operator_star h = AssertionFailed /\
     operator_arrow h = AssertionFailed).
Proof.
  unfold operator_bool, operator_star, operator_arrow, Get.
  destruct (N.eqb_spec (m_Ptr h) NULL) as [He|Hne]; simpl; split; try done.
Qed.

Lemma dereference_contract_witness :
  (operator_bool (mk 7 50) = true /\ operator_star (mk 7 50) = Returned 7%N) /\
  (operator_bool (mk NULL NULL) = false /\ operator_arrow (mk NULL NULL) = AssertionFailed).
Proof.
  split.
  - split; [reflexivity|].
    exact (proj1 (proj1 (dereference_contract (mk 7 50)) eq_refl)).
  - split; [reflexivity|].
    exact (proj2 (proj2 (dereference_contract (mk NULL NULL)) eq_refl)).
Defined.

(** C7: assigning a handle to itself returns the store unchanged: the
    members of the handle, its counter, the live pointees and the log of
    deletions are what they were, whether the handle is empty or not. *)
Theorem self_assignment_is_noop (this : N) (s : Store) :
  operator_assign this this s = Some s.
Proof. unfold operator_assign. by rewrite decide_False by (intros H; by apply H). Qed.

(** *** Construction from a raw pointer *)

Lemma Init_after_Reset (this P rc : N) (s s1 : Store) :
  Reset this s = Some s1 ->
  Init this P rc s
    = Some (mkStore (<[this := mk P rc]> (handles s1)) (<[rc := 1%Z]> (counters s1))
              (pointees s1) (deleted s1)).
Proof.
  intros Hr. unfold Init. rewrite Hr. simpl.
  destruct (Reset_keeps_object _ _ _ Hr) as [h ->]. simpl.
  unfold store. simpl. rewrite lookup_insert_eq.
  by rewrite !insert_insert_eq.
Qed.

(** On storage that holds null members the constructor is defined, and it
    changes nothing but the new handle and its counter. *)
Lemma SharedPtr_ptr_on_null_storage (this P rc : N) (s : Store) :
  SharedPtr_ptr (mk NULL NULL) this P rc s
    = Some (mkStore (<[this := mk P rc]> (handles s)) (<[rc := 1%Z]> (counters s))
              (pointees s) (deleted s)).
Proof.
  unfold SharedPtr_ptr.
  rewrite (Init_after_Reset _ _ _ _ (set_handle this (mk NULL NULL) s)).
  - simpl. by rewrite insert_insert_eq.
  - apply (Reset_empty _ (mk NULL NULL)); [apply lookup_insert_eq | done].
Qed.

(** What the constructor establishes whenever the release of the storage's
    content is defined (it is on null members) and [new] hands out a cell
    [rc] that was not allocated: the handle holds exactly [P], its counter
    is the new cell [rc] and contains 1, no pointee was touched after the
    release, and destroying the handle deletes [P], if [P] is a live
    object. *)
Lemma SharedPtr_ptr_when_defined (junk : t) (this P rc : N) (s s1 : Store) :
  Reset this (set_handle this junk s) = Some s1 ->
  counters s1 !! rc = None ->
  exists s',
    SharedPtr_ptr junk this P rc s = Some s' /\
    handles s' !! this = Some (mk P rc) /\
    Get (mk P rc) = P /\
    counters s' !! rc = Some 1%Z /\
    (dom (counters s') = {[rc]} ∪ dom (counters s1)) /\
    (rc ∉ dom (counters s1)) /\
    pointees s' = pointees s1 /\ deleted s' = deleted s1 /\
    (P <> NULL -> P ∈ pointees s' ->
       exists s'', destroy this s' = Some s'' /\
                   deleted s'' = P :: deleted s' /\ (P ∉ pointees s'') /\
                   counters s'' !! rc = None).
Proof.
  intros Hr Hfresh. eexists. split.
  { unfold SharedPtr_ptr. exact (Init_after_Reset _ _ _ _ _ Hr). }
  simpl. split; [apply lookup_insert_eq|]. split; [reflexivity|].
  split; [apply lookup_insert_eq|]. split; [apply dom_insert_L|].
  split; [by apply not_elem_of_dom|]. split; [reflexivity|]. split; [reflexivity|].
  intros HP Hlive. eexists. split.
  { unfold destroy. rewrite (Reset_sole this P rc); simpl;
      [reflexivity | apply lookup_insert_eq | done | apply lookup_insert_eq | done]. }
  simpl. split; [reflexivity|]. split; [|apply lookup_delete_eq].
  rewrite elem_of_difference, elem_of_singleton. tauto.
Qed.

(** C4, at the inputs where the code departs from it.  The constructor
    from a raw pointer has no member initialiser, and [Init] releases what
    the members hold before it sets them.  On storage holding arbitrary
    non-null bytes the constructor reads a counter that does not exist and
    sets up nothing.  On storage still holding the bytes of a destroyed copy
    of the handle at 102, it takes the owner count of pointee 8 to zero and
    deletes that pointee under the handle at 102 that owns it. *)
Theorem SharedPtr_ptr_releases_uninitialised_members :
  SharedPtr_ptr (mk 9 9) 100 7 50 (initial {[ 7%N ]}) = None /\
  (exists s s',
     run stale_storage (initial {[ 8%N; 9%N ]}) = Some s /\
     handles s !! 101%N = None /\
     handles s !! 102%N = Some (mk 8 50) /\ counters s !! 50%N = Some 1%Z /\
     SharedPtr_ptr (mk 8 50) 101 9 51 s = Some s' /\
     deleted s' = [8%N] /\
     handles s' !! 102%N = Some (mk 8 50) /\ counters s' !! 50%N = None).
Proof.
  split; [vm_compute; reflexivity|].
  eexists. eexists. split; [vm_compute; reflexivity|].
  split; [vm_compute; reflexivity|]. split; [vm_compute; reflexivity|].
  split; [vm_compute; reflexivity|]. split; [vm_compute; reflexivity|].
  repeat split; vm_compute; reflexivity.
Qed.

(** *** Handles sharing a pointee *)

Lemma share_nonempty (this copy P rc : N) (c : Z) (s : Store) :
  handles s !! copy = Some (mk P rc) -> P <> NULL ->
  counters s !! rc = Some c ->
  share this copy s
    = Some (mkStore (<[this := mk P rc]> (handles s)) (<[rc := wrap (c + 1)]> (counters s))
              (pointees s) (deleted s)).
Proof.
  intros Hh HP Hc. unfold share. rewrite Hh. simpl.
  destruct (N.eqb_spec P NULL) as [|_]; [done|]. simpl.
  unfold load. simpl. rewrite Hc. simpl.
  unfold store. simpl. by rewrite Hc.
Qed.

Lemma share_empty (this copy : N) (h : t) (s : Store) :
  handles s !! copy = Some h -> m_Ptr h = NULL ->
  share this copy s = Some (set_handle this (mk NULL NULL) s).
Proof. intros Hh HP. unfold share. rewrite Hh. simpl. unfold Get. by rewrite HP. Qed.

(** Copying a non-empty handle adds one to the counter, and nothing else
    changes but the new handle. *)
Lemma SharedPtr_copy_increments (this copy P rc : N) (c : Z) (s : Store) :
  handles s !! copy = Some (mk P rc) -> P <> NULL ->
  counters s !! rc = Some c -> (0 <= c < UINT_MODULUS - 1)%Z ->
  SharedPtr_copy this copy s
    = Some (mkStore (<[this := mk P rc]> (handles s)) (<[rc := (c + 1)%Z]> (counters s))
              (pointees s) (deleted s)).
Proof.
  intros Hh HP Hc Hrange. unfold SharedPtr_copy.
  rewrite (share_nonempty _ _ _ _ _ _ Hh HP Hc).
  unfold wrap. rewrite Z.mod_small by lia. reflexivity.
Qed.

(** The destructor of a handle that is not the last owner only takes one
    from the counter. *)
Lemma destroy_not_last (this P rc : N) (c : Z) (s : Store) :
  handles s !! this = Some (mk P rc) -> P <> NULL ->
  counters s !! rc = Some c -> (1 < c < UINT_MODULUS)%Z ->
  destroy this s
    = Some (mkStore (delete this (handles s)) (<[rc := (c - 1)%Z]> (counters s))
              (pointees s) (deleted s)).
Proof.
  intros Hh HP Hc Hrange. unfold destroy.
  rewrite (Reset_shared _ _ _ _ _ Hh HP Hc) by lia. simpl.
  unfold wrap, drop_handle. simpl. rewrite Z.mod_small by lia. reflexivity.
Qed.

(** The destructor of the last owner deletes the pointee and the counter. *)
Lemma destroy_last (this P rc : N) (s : Store) :
  handles s !! this = Some (mk P rc) -> P <> NULL ->
  counters s !! rc = Some 1%Z -> P ∈ pointees s ->
  destroy this s
    = Some (mkStore (delete this (handles s)) (delete rc (counters s))
              (pointees s ∖ {[P]}) (P :: deleted s)).
Proof.
  intros Hh HP Hc Hlive. unfold destroy.
  rewrite (Reset_sole _ _ _ _ Hh HP Hc Hlive). simpl.
  unfold drop_handle. simpl. by rewrite delete_insert_eq.
Qed.

(** [Reset] on a handle that shares its pointee with another one: the first
    call takes one from the counter and leaves the handle holding the
    pointee; a second release through the same handle then finds the counter
    at 1 and deletes the pointee under the other handle. *)
Lemma Reset_twice_deletes_under_other_owner (a b P rc : N) (s : Store) :
  a <> b -> P <> NULL -> P ∈ pointees s ->
  handles s !! a = Some (mk P rc) ->
  handles s !! b = Some (mk P rc) ->
  counters s !! rc = Some 2%Z ->
  exists s1 s2,
    Reset a s = Some s1 /\
    handles s1 !! a = Some (mk P rc) /\ counters s1 !! rc = Some 1%Z /\
    deleted s1 = deleted s /\
    Reset a s1 = Some s2 /\
    deleted s2 = P :: deleted s /\
    handles s2 !! b = Some (mk P rc) /\
    counters s2 !! rc = None /\
    destroy b s2 = None.
Proof.
  intros Hab HP Hlive Ha Hb Hc.
  eexists. eexists. split.
  { exact (Reset_shared _ _ _ _ _ Ha HP Hc ltac:(lia)). }
  simpl. split; [exact Ha|]. split; [apply lookup_insert_eq|]. split; [reflexivity|].
  split.
  { apply Reset_sole; simpl; [exact Ha | exact HP | apply lookup_insert_eq | exact Hlive]. }
  simpl. split; [reflexivity|].
  split; [by rewrite lookup_insert_ne|].
  split; [apply lookup_delete_eq|].
  unfold destroy, Reset. simpl. rewrite lookup_insert_ne by done. rewrite Hb. simpl.
  destruct (N.eqb_spec P NULL) as [|_]; [done|]. simpl.
  unfold load. simpl. by rewrite lookup_delete_eq.
Qed.

(** C1, at the input where the code departs from it.  Of two handles on the
    pointee 7, the one at 100 is reset and then destroyed.  The pointee is
    deleted by that, although the handle at 101 was neither reset nor
    destroyed and still holds it; the destructor of that last handle then
    reads a counter that has been freed. *)
Theorem Reset_then_destroy_deletes_shared_pointee :
  (exists s,
     run (two_handles ++ [CallReset 100; CallDestroy 100]%N) (initial {[ 7%N ]}) = Some s /\
     deleted s = [7%N] /\ pointees s = ∅ /\
     handles s !! 101%N = Some (mk 7 50) /\
     counters s !! 50%N = None) /\
  run (two_handles ++ [CallReset 100; CallDestroy 100; CallDestroy 101]%N)
      (initial {[ 7%N ]}) = None.
Proof.
  split; [|vm_compute; reflexivity].
  eexists. split; [vm_compute; reflexivity|].
  repeat split; vm_compute; reflexivity.
Qed.

(** The scenario of the specification: of four handles, three are reset and
    the pointee is still alive; resetting the fourth deletes it, once.  The
    three handles reset first still hold the pointee and the counter, and
    the destructor of any of them is undefined. *)
Example four_handles_reset :
  (exists s,
     run (four_handles ++ [CallReset 100; CallReset 101; CallReset 102]%N)
         (initial {[ 7%N ]}) = Some s /\
     deleted s = [] /\ counters s !! 50%N = Some 1%Z /\
     handles s !! 100%N = Some (mk 7 50)) /\
  (exists s,
     run (four_handles ++ [CallReset 100; CallReset 101; CallReset 102; CallReset 103]%N)
         (initial {[ 7%N ]}) = Some s /\
     destructions 7 s = 1 /\
     handles s !! 103%N = Some (mk NULL NULL) /\
     handles s !! 100%N = Some (mk 7 50) /\
     destroy 100 s = None).
Proof.
  split; eexists; (split; [vm_compute; reflexivity|]); repeat split; vm_compute; reflexivity.
Qed.

(** With destructors in place of [Reset] the same scenario is as the
    specification has it, and nothing is left behind. *)
Example four_handles_destroyed :
  (exists s,
     run (four_handles ++ [CallDestroy 100; CallDestroy 101; CallDestroy 102]%N)
         (initial {[ 7%N ]}) = Some s /\
     deleted s = [] /\ counters s !! 50%N = Some 1%Z) /\
  run (four_handles ++ [CallDestroy 100; CallDestroy 101; CallDestroy 102; CallDestroy 103]%N)
      (initial {[ 7%N ]}) = Some (mkStore ∅ ∅ ∅ [7%N]).
Proof.
  split; [|vm_compute; reflexivity].
  eexists; (split; [vm_compute; reflexivity|]); repeat split; vm_compute; reflexivity.
Qed.

(** *** The counter as the number of owners

    Copy construction and destruction keep [sharing]; the pointee goes with
    the last owner. *)

Lemma sharing_after_construction (this P rc : N) (s : Store) :
  P <> NULL -> P ∈ pointees s ->
  exists s', SharedPtr_ptr (mk NULL NULL) this P rc s = Some s' /\
             sharing P rc {[this]} s' /\ deleted s' = deleted s.
Proof.
  intros HP Hlive. eexists. split; [apply SharedPtr_ptr_on_null_storage|].
  split; [|reflexivity].
  unfold sharing. rewrite size_singleton. cbn [handles counters pointees deleted].
  repeat split; try done.
  - intros a ->%elem_of_singleton. apply lookup_insert_eq.
  - apply lookup_insert_eq.
Qed.

Lemma sharing_copy (this copy P rc : N) (A : gset N) (s : Store) :
  sharing P rc A s -> copy ∈ A -> this ∉ A ->
  (Z.of_nat (size A) + 1 < UINT_MODULUS)%Z ->
  exists s', SharedPtr_copy this copy s = Some s' /\
             sharing P rc ({[this]} ∪ A) s' /\ deleted s' = deleted s.
Proof.
  intros (HP & Hlive & Hall & Hc & Hlt) Hin Hnew Hroom.
  eexists. split.
  { apply (SharedPtr_copy_increments this copy P rc _ s (Hall _ Hin) HP Hc). lia. }
  split; [|reflexivity].
  assert (Hsize : size ({[this]} ∪ A) = S (size A)).
  { rewrite size_union by (by apply disjoint_singleton_l). by rewrite size_singleton. }
  unfold sharing. rewrite Hsize. cbn [handles counters pointees deleted].
  repeat split; try done.
  - intros a [->%elem_of_singleton|Ha]%elem_of_union.
    + apply lookup_insert_eq.
    + destruct (decide (this = a)) as [->|Hne]; [done|].
      rewrite lookup_insert_ne by done. by apply Hall.
  - rewrite lookup_insert_eq. f_equal. lia.
  - lia.
Qed.

Lemma sharing_destroy (this P rc : N) (A : gset N) (s : Store) :
  sharing P rc A s -> this ∈ A -> 1 < size A ->
  exists s', destroy this s = Some s' /\
             sharing P rc (A ∖ {[this]}) s' /\ deleted s' = deleted s.
Proof.
  intros (HP & Hlive & Hall & Hc & Hlt) Hin Hmany.
  eexists. split.
  { apply (destroy_not_last this P rc _ s (Hall _ Hin) HP Hc). lia. }
  split; [|reflexivity].
  assert (Hsize : size (A ∖ {[this]}) = size A - 1).
  { rewrite size_difference by (by apply singleton_subseteq_l). by rewrite size_singleton. }
  unfold sharing. rewrite Hsize. cbn [handles counters pointees deleted].
  repeat split; try done.
  - intros a [Ha Hne]%elem_of_difference.
    rewrite lookup_delete_ne; [by apply Hall|].
    intros ->. apply Hne. by apply elem_of_singleton.
  - rewrite lookup_insert_eq. f_equal. lia.
  - lia.
Qed.

Lemma sharing_destroy_last (this P rc : N) (s : Store) :
  sharing P rc {[this]} s ->
  exists s', destroy this s = Some s' /\
             deleted s' = P :: deleted s /\ (P ∉ pointees s') /\
             counters s' !! rc = None /\ handles s' !! this = None.
Proof.
  intros (HP & Hlive & Hall & Hc & _). rewrite size_singleton in Hc.
  eexists. split.
  { apply (destroy_last this P rc s); try done. apply Hall. by apply elem_of_singleton. }
  simpl. split; [reflexivity|]. split.
  - rewrite elem_of_difference, elem_of_singleton. tauto.
  - split; apply lookup_delete_eq.
Qed.

(** Destroying fewer handles than there are owners deletes nothing. *)
Lemma sharing_destroy_some (P rc : N) (l : list N) :
  forall (A : gset N) (s : Store),
  sharing P rc A s -> NoDup l -> (forall a, a ∈ l -> a ∈ A) -> length l < size A ->
  exists s', run (map CallDestroy l) s = Some s' /\
             sharing P rc (A ∖ list_to_set l) s' /\ deleted s' = deleted s.
Proof.
  induction l as [|a l IH]; intros A s Hsh Hnd Hsub Hlen.
  - exists s. split; [reflexivity|]. split; [|reflexivity].
    simpl. by rewrite difference_empty_L.
  - apply NoDup_cons in Hnd as [Hnotin Hnd]. simpl in Hlen.
    assert (Ha : a ∈ A) by (apply Hsub; left).
    destruct (sharing_destroy a P rc A s Hsh Ha ltac:(lia)) as (s1 & Hd & Hsh1 & Hdel1).
    assert (Hsize : size (A ∖ {[a]}) = size A - 1).
    { rewrite size_difference by (by apply singleton_subseteq_l). by rewrite size_singleton. }
    destruct (IH (A ∖ {[a]}) s1 Hsh1 Hnd) as (s' & Hrun & Hsh' & Hdel').
    { intros b Hb. apply elem_of_difference. split; [apply Hsub; by right|].
      intros ->%elem_of_singleton. done. }
    { lia. }
    exists s'. split; [simpl; rewrite Hd; exact Hrun|].
    split; [|congruence].
    simpl. by rewrite <- difference_difference_l_L.
Qed.

(** What C1 says, for handles released by their destructors: of the owners
    [A] of [P], destroying all but [last] deletes nothing, and destroying
    [last] after them deletes [P], once. *)
Lemma sharing_destroy_all (P rc last : N) (l : list N) (A : gset N) (s : Store) :
  sharing P rc A s -> NoDup (l ++ [last]) -> list_to_set (l ++ [last]) = A ->
  exists s1 s2,
    run (map CallDestroy l) s = Some s1 /\ deleted s1 = deleted s /\
    P ∈ pointees s1 /\
    destroy last s1 = Some s2 /\ deleted s2 = P :: deleted s /\ P ∉ pointees s2.
Proof.
  intros Hsh Hnd HA.
  apply NoDup_app in Hnd as (Hnd & Hdisj & _).
  assert (Hlast : last ∉ l).
  { intros Hin. apply (Hdisj _ Hin). by apply list_elem_of_singleton. }
  assert (Hsize : size A = S (length l)).
  { rewrite <- HA, list_to_set_app_L. simpl.
    rewrite size_union by (rewrite elem_of_disjoint; intros x Hx%elem_of_list_to_set;
                           rewrite union_empty_r_L, elem_of_singleton; by intros ->).
    rewrite union_empty_r_L, size_singleton, size_list_to_set by done. lia. }
  destruct (sharing_destroy_some P rc l A s Hsh Hnd) as (s1 & Hrun & Hsh1 & Hdel1).
  { intros a Ha. rewrite <- HA, list_to_set_app_L. apply elem_of_union. left.
    by apply elem_of_list_to_set. }
  { lia. }
  assert (Hrest : A ∖ list_to_set l = {[last]}).
  { rewrite <- HA, list_to_set_app_L. simpl. rewrite union_empty_r_L.
    apply set_eq. intros x. rewrite elem_of_difference, elem_of_union, !elem_of_singleton,
      elem_of_list_to_set. split; [tauto|]. intros ->. tauto. }
  rewrite Hrest in Hsh1.
  destruct (sharing_destroy_last last P rc s1 Hsh1) as (s2 & Hd & Hdel2 & Hgone & _).
  exists s1, s2. repeat split; try done.
  - by destruct Hsh1 as (_ & ? & _).
  - by rewrite Hdel2, Hdel1.
Qed.

(** [Reset] breaks [sharing]: on one of several owners it takes one from
    the counter, and the handle goes on holding the pointee, so the counter
    is one short of the number of handles that will release it. *)
Lemma Reset_keeps_handle_of_shared (this P rc : N) (A : gset N) (s : Store) :
  sharing P rc A s -> this ∈ A -> 1 < size A ->
  exists s', Reset this s = Some s' /\
             (forall a, a ∈ A -> handles s' !! a = Some (mk P rc)) /\
             operator_bool (mk P rc) = true /\
             counters s' !! rc = Some (Z.of_nat (size A) - 1)%Z /\
             ~ sharing P rc A s'.
Proof.
  intros (HP & Hlive & Hall & Hc & Hlt) Hin Hmany.
  eexists. split.
  { apply (Reset_shared this P rc _ s (Hall _ Hin) HP Hc). lia. }
  simpl. split; [exact Hall|].
  split; [unfold operator_bool; simpl; by destruct (N.eqb_spec P NULL)|].
  assert (Hw : wrap (Z.of_nat (size A) - 1) = (Z.of_nat (size A) - 1)%Z).
  { unfold wrap. apply Z.mod_small. lia. }
  split; [by rewrite lookup_insert_eq, Hw|].
  intros (_ & _ & _ & Hc' & _). simpl in Hc'.
  rewrite lookup_insert_eq, Hw in Hc'. injection Hc'. lia.
Qed.

(** The guard of [operator=] matters: what its body does to a sole owner
    assigned to itself is to delete the pointee and leave the handle
    empty. *)
Lemma release_then_share_self (this P rc : N) (s : Store) :
  sharing P rc {[this]} s ->
  exists s', release_then_share this this s = Some s' /\
             deleted s' = P :: deleted s /\
             handles s' !! this = Some (mk NULL NULL).
Proof.
  intros (HP & Hlive & Hall & Hc & _). rewrite size_singleton in Hc.
  assert (Hh : handles s !! this = Some (mk P rc)).
  { apply Hall. by apply elem_of_singleton. }
  eexists. split.
  { unfold release_then_share. rewrite (Reset_sole _ _ _ _ Hh HP Hc Hlive). simpl.
    apply (share_empty _ _ (mk NULL NULL)); simpl; [apply lookup_insert_eq | done]. }
  simpl. split; [reflexivity|]. apply lookup_insert_eq.
Qed.

(** The counter is an [unsigned int]: the copy made when it stands at
    [UINT_MAX] takes it to 0. *)
Lemma SharedPtr_copy_wraps (this copy P rc : N) (s : Store) :
  handles s !! copy = Some (mk P rc) -> P <> NULL ->
  counters s !! rc = Some (UINT_MODULUS - 1)%Z ->
  exists s', SharedPtr_copy this copy s = Some s' /\ counters s' !! rc = Some 0%Z.
Proof.
  intros Hh HP Hc. eexists. split.
  { exact (share_nonempty _ _ _ _ _ _ Hh HP Hc). }
  simpl. by rewrite lookup_insert_eq.
Qed.

(** When [sq_typeof] fails nothing was pushed, and the closing [sq_pop]
    takes one value off the stack of the caller. *)
Lemma FormatTypeError_unknown_pops (vm : Squirrel.SQVM) (idx : Z) (expected : string) :
  Squirrel.sq_typeof vm idx = (Squirrel.SQ_ERROR, vm) ->
  snd (Error.FormatTypeError vm idx expected) = Squirrel.sq_pop vm 1.
Proof.
  intros H. unfold Error.FormatTypeError. rewrite H. reflexivity.
Qed.

(** ** More on the error registry *)

Lemma Throw_lookup_present (vm c : N) (err a : string) (m : gmap N string) :
  m !! c = Some a -> Error.Throw vm err m !! c = Some a.
Proof.
  intros Hc. destruct (decide (vm = c)) as [->|Hne].
  - by rewrite (Throw_present _ _ _ _ Hc).
  - destruct (m !! vm) as [old|] eqn:E.
    + by rewrite (Throw_present _ _ _ _ E).
    + rewrite (Throw_absent _ _ _ E). by rewrite lookup_insert_ne.
Qed.

(** X1: an entry that is pending stays as it is through any sequence of
    calls that does not drain its own context: later [Throw]s for the same
    context, and [Throw], [Clear] and [Message] for other contexts, leave
    the first message in place. *)
Theorem pending_entry_survives (c : N) (a : string) (l : list Registry.op)
    (m : gmap N string) :
  m !! c = Some a ->
  Forall (fun o => Registry.drains c o = false) l ->
  Registry.apply_all m l !! c = Some a.
Proof.
  intros Hc Hl. revert m Hc. unfold Registry.apply_all.
  induction Hl as [|o l Ho _ IH]; intros m Hc; [exact Hc|].
  simpl. apply IH. destruct o as [vm err|vm|vm]; simpl in *.
  - by apply Throw_lookup_present.
  - apply bool_decide_eq_false in Ho. unfold Error.Clear. by rewrite lookup_delete_ne.
  - apply bool_decide_eq_false in Ho. rewrite Message_map. by rewrite lookup_delete_ne.
Qed.

Lemma pending_entry_survives_witness :
  let l := [Registry.OpThrow 1 "second"; Registry.OpMessage 2; Registry.OpClear 3;
            Registry.OpThrow 2 "other"] in
  Registry.apply_all {[ 1%N := "first" ]} l !! 1%N = Some "first".
Proof.
  intros l.
  apply (pending_entry_survives 1 "first" l {[ 1%N := "first" ]}); [reflexivity|].
  repeat constructor.
Defined.

(** X2: once the entry of a context has been drained, by [Message] or by
    [Clear], the next [Throw] for that context is recorded, whatever was
    pending before. *)
Theorem Throw_after_drain_is_recorded (c : N) (b : string) (m : gmap N string) :
  Error.Throw c b (snd (Error.Message c m)) !! c = Some b /\
  Error.Throw c b (Error.Clear c m) !! c = Some b /\
  fst (Error.Message c (Error.Throw c b (snd (Error.Message c m)))) = b.
Proof.
  rewrite Message_map. unfold Error.Clear.
  assert (H : Error.Throw c b (delete c m) !! c = Some b).
  { rewrite Throw_absent by apply lookup_delete_eq. apply lookup_insert_eq. }
  split; [exact H|]. split; [exact H|].
  by rewrite Message_text, H.
Qed.

(** X3: [Message] leaves every other context alone, although [errMap[vm]]
    inserts an entry on the way when there was none: the entries of the
    contexts other than [c] are the same before and after [Message c], and
    the map left by [Message c] is the map left by [Clear c]. *)
Theorem Message_other_context_unchanged (c c' : N) (m : gmap N string) :
  c' <> c ->
  snd (Error.Message c m) !! c' = m !! c' /\
  Error.Occurred c' (snd (Error.Message c m)) = Error.Occurred c' m /\
  snd (Error.Message c m) = Error.Clear c m.
Proof.
  intros Hne. rewrite Message_map. unfold Error.Clear, Error.Occurred.
  rewrite lookup_delete_ne by done. done.
Qed.

Lemma Message_other_context_unchanged_witness :
  let m : gmap N string := {[ 2%N := "kept" ]} in
  (2%N <> 1%N) /\ snd (Error.Message 1 m) !! 2%N = Some "kept".
Proof.
  intros m. split; [discriminate|].
  exact (proj1 (Message_other_context_unchanged 1 2 m ltac:(discriminate))).
Defined.

(** X4: an empty message is an error like any other for [Occurred], but
    [Message] cannot tell it from no error: after a [Throw] of the empty text on a
    context without entry, [Occurred c] is true and [Message c] returns the text it
    returns when nothing was thrown. *)
Theorem empty_message_is_ambiguous (c : N) (m : gmap N string) :
  m !! c = None ->
  Error.Occurred c (Error.Throw c EmptyString m) = true /\
  Error.Occurred c m = false /\
  fst (Error.Message c (Error.Throw c EmptyString m)) = fst (Error.Message c m).
Proof.
  intros Hc. rewrite (Throw_absent _ _ _ Hc).
  split; [unfold Error.Occurred; by rewrite lookup_insert_eq|].
  split; [by apply Occurred_false|].
  by rewrite !Message_text, lookup_insert_eq, Hc.
Qed.

Lemma empty_message_is_ambiguous_witness :
  Error.Occurred 1 (Error.Throw 1 EmptyString (∅ : gmap N string)) = true /\
  fst (Error.Message 1 (Error.Throw 1 EmptyString (∅ : gmap N string))) = EmptyString.
Proof.
  assert (H0 : (∅ : gmap N string) !! 1%N = None) by reflexivity.
  destruct (empty_message_is_ambiguous 1 ∅ H0) as (H1 & _ & H3).
  split; [exact H1 | exact H3].
Defined.

(** X5: [Throw]s for two different contexts can be made in either order:
    the registry they leave is the same. *)
Theorem Throw_commutes (c1 c2 : N) (a b : string) (m : gmap N string) :
  c1 <> c2 ->
  Error.Throw c1 a (Error.Throw c2 b m) = Error.Throw c2 b (Error.Throw c1 a m).
Proof.
  intros Hne.
  destruct (m !! c1) as [o1|] eqn:E1; destruct (m !! c2) as [o2|] eqn:E2.
  - by rewrite (Throw_present _ _ _ _ E2), (Throw_present _ _ _ _ E1),
      (Throw_present _ _ _ _ E2).
  - rewrite (Throw_absent _ _ _ E2), (Throw_present _ _ _ _ E1).
    rewrite (Throw_present c1 a o1) by (by rewrite lookup_insert_ne).
    by rewrite (Throw_absent _ _ _ E2).
  - rewrite (Throw_present _ _ _ _ E2), (Throw_absent _ _ _ E1).
    by rewrite (Throw_present c2 b o2) by (by rewrite lookup_insert_ne).
  - rewrite (Throw_absent _ _ _ E2), (Throw_absent _ _ _ E1).
    rewrite (Throw_absent c1) by (by rewrite lookup_insert_ne).
    rewrite (Throw_absent c2) by (by rewrite lookup_insert_ne).
    by apply insert_insert_ne.
Qed.

Lemma Throw_commutes_witness :
  (1%N <> 2%N) /\
  Error.Throw 1 "a" (Error.Throw 2 "b" (∅ : gmap N string))
  = Error.Throw 2 "b" (Error.Throw 1 "a" ∅).
Proof.
  split; [discriminate|].
  exact (Throw_commutes 1 2 "a" "b" ∅ ltac:(discriminate)).
Defined.

(** X6: what [FormatTypeError] does to the stack of the VM.  When
    [sq_typeof] succeeds, the values pushed are popped again and the stack
    is returned as it was.  When [sq_typeof] fails, it has pushed nothing,
    and the [sq_pop] that closes the function removes the value on top of
    the caller's stack. *)
Theorem FormatTypeError_stack_effect (vm : Squirrel.SQVM) (idx : Z) (expected : string) :
  (Squirrel.SQ_SUCCEEDED (fst (Squirrel.sq_typeof vm idx)) = true ->
     snd (Error.FormatTypeError vm idx expected) = vm) /\
  (Squirrel.SQ_SUCCEEDED (fst (Squirrel.sq_typeof vm idx)) = false ->
     Squirrel.stack (snd (Error.FormatTypeError vm idx expected))
       = drop 1 (Squirrel.stack vm)).
Proof.
  split; intros Hres.
  - destruct (Squirrel.sq_typeof vm idx) as [res vm1] eqn:Hty. simpl in Hres.
    destruct (sq_typeof_pushes_string _ _ _ _ Hty Hres) as [name ->].
    destruct (sq_typeof_result vm idx) as [Hr|Hr].
    + rewrite Hty in Hr. simpl in Hr. subst res.
      by rewrite (FormatTypeError_got _ _ _ _ Hty).
    + rewrite Hty in Hr. injection Hr as -> _. discriminate.
  - destruct (sq_typeof_result vm idx) as [Hr|Hr].
    + rewrite Hr in Hres. discriminate.
    + by rewrite (FormatTypeError_unknown_pops _ _ _ Hr).
Qed.

Lemma FormatTypeError_stack_effect_witness :
  let vm := Squirrel.mkVM [Squirrel.SQOther None "?"; Squirrel.SQOther (Some "integer") "42"] in
  snd (Error.FormatTypeError vm 1 "string") = vm /\
  Squirrel.stack (snd (Error.FormatTypeError vm 2 "string"))
    = [Squirrel.SQOther (Some "integer") "42"].
Proof.
  intros vm. split.
  - exact (proj1 (FormatTypeError_stack_effect vm 1 "string") eq_refl).
  - exact (proj2 (FormatTypeError_stack_effect vm 2 "string") eq_refl).
Defined.

(** ** The string conversions *)

Lemma pow2_pos (bits : Z) : (0 <= bits -> 0 < 2 ^ bits)%Z.
Proof. intros H. by apply Z.pow_pos_nonneg. Qed.

Lemma pow2_half (bits : Z) : (0 < bits -> 2 ^ bits = 2 * 2 ^ (bits - 1))%Z.
Proof.
  intros H. replace bits with (Z.succ (bits - 1)) at 1 by lia.
  apply Z.pow_succ_r. lia.
Qed.

Lemma convert_in_range (sg : bool) (bits z : Z) :
  (0 < bits)%Z -> Unicode.in_range sg bits (Unicode.convert sg bits z).
Proof.
  intros Hb. unfold Unicode.in_range, Unicode.convert.
  pose proof (pow2_pos bits ltac:(lia)) as Hp.
  pose proof (pow2_half bits Hb) as Hh.
  pose proof (Z.mod_pos_bound z (2 ^ bits) Hp) as Hm.
  destruct sg; simpl; [|lia].
  destruct (Z.leb_spec (2 ^ (bits - 1)) (z mod 2 ^ bits)); lia.
Qed.

Lemma convert_id (sg : bool) (bits z : Z) :
  (0 < bits)%Z -> Unicode.in_range sg bits z -> Unicode.convert sg bits z = z.
Proof.
  intros Hb. unfold Unicode.in_range, Unicode.convert.
  pose proof (pow2_pos bits ltac:(lia)) as Hp.
  pose proof (pow2_half bits Hb) as Hh.
  destruct sg; simpl; intros Hr.
  - destruct (Z_lt_le_dec z 0) as [Hneg|Hpos].
    + assert (Hmod : (z mod 2 ^ bits = z + 2 ^ bits)%Z).
      { symmetry. apply (Z.mod_unique z (2 ^ bits) (-1)); lia. }
      rewrite Hmod. destruct (Z.leb_spec (2 ^ (bits - 1)) (z + 2 ^ bits)); lia.
    + rewrite Z.mod_small by lia.
      destruct (Z.leb_spec (2 ^ (bits - 1)) z); lia.
  - apply Z.mod_small. lia.
Qed.

Lemma convert_congr (sg : bool) (bits y z : Z) :
  (y mod 2 ^ bits = z mod 2 ^ bits)%Z ->
  Unicode.convert sg bits y = Unicode.convert sg bits z.
Proof. intros H. unfold Unicode.convert. by rewrite H. Qed.

Lemma convert_mod (sg : bool) (bits z : Z) :
  (0 < bits)%Z -> (Unicode.convert sg bits z mod 2 ^ bits = z mod 2 ^ bits)%Z.
Proof.
  intros Hb. unfold Unicode.convert.
  pose proof (pow2_pos bits ltac:(lia)) as Hp.
  destruct (sg && (2 ^ (bits - 1) <=? z mod 2 ^ bits)%Z).
  - replace (z mod 2 ^ bits - 2 ^ bits)%Z with (z mod 2 ^ bits + (-1) * 2 ^ bits)%Z by lia.
    rewrite Z.mod_add by lia. apply Z.mod_mod. lia.
  - apply Z.mod_mod. lia.
Qed.

Lemma narrow_widen_char (pf : Unicode.Platform) (z : Z) :
  (8 <= Unicode.wchar_bits pf)%Z ->
  Unicode.in_range (Unicode.char_signed pf) 8 z ->
  Unicode.convert (Unicode.char_signed pf) 8
    (Unicode.convert (Unicode.wchar_signed pf) (Unicode.wchar_bits pf) z) = z.
Proof.
  intros Hw Hr.
  rewrite <- (convert_id (Unicode.char_signed pf) 8 z) at 2 by (lia || done).
  apply convert_congr.
  assert (Hdiv : (2 ^ 8 | 2 ^ Unicode.wchar_bits pf)%Z).
  { exists (2 ^ (Unicode.wchar_bits pf - 8))%Z.
    rewrite <- Z.pow_add_r by lia. f_equal. lia. }
  rewrite <- (Z.mod_mod_divide (Unicode.convert _ _ z) _ _ Hdiv).
  rewrite convert_mod by lia.
  by apply Z.mod_mod_divide.
Qed.

Lemma pow2_ge_128 (bits : Z) : (8 <= bits -> 128 <= 2 ^ (bits - 1))%Z.
Proof.
  intros H. change 128%Z with (2 ^ 7)%Z. apply Z.pow_le_mono_r; lia.
Qed.

Lemma widen_narrow_ascii (pf : Unicode.Platform) (z : Z) :
  (8 <= Unicode.wchar_bits pf)%Z -> (0 <= z < 128)%Z ->
  Unicode.convert (Unicode.wchar_signed pf) (Unicode.wchar_bits pf)
    (Unicode.convert (Unicode.char_signed pf) 8 z) = z.
Proof.
  intros Hw Hr.
  pose proof (pow2_ge_128 _ Hw) as H128.
  pose proof (pow2_half (Unicode.wchar_bits pf) ltac:(lia)) as Hh.
  rewrite (convert_id (Unicode.char_signed pf) 8 z); [|lia|].
  - apply convert_id; [lia|]. unfold Unicode.in_range.
    destruct (Unicode.wchar_signed pf); lia.
  - unfold Unicode.in_range. destruct (Unicode.char_signed pf); simpl; lia.
Qed.

(** X7: widening a string and narrowing it again gives the string back,
    for every [char] value and not only for ASCII, on every platform whose
    [wchar_t] has at least 8 bits. *)
Theorem string_survives_wstring (pf : Unicode.Platform) (str : list Z) :
  (8 <= Unicode.wchar_bits pf)%Z ->
  Forall (Unicode.in_range (Unicode.char_signed pf) 8) str ->
  Unicode.ascii_wstring_to_string pf (Unicode.ascii_string_to_wstring pf str) = str.
Proof.
  intros Hw Hall. unfold Unicode.ascii_wstring_to_string, Unicode.ascii_string_to_wstring.
  induction Hall as [|z str Hz _ IH]; [reflexivity|].
  simpl. rewrite IH. f_equal. by apply narrow_widen_char.
Qed.

Lemma string_survives_wstring_witness :
  Unicode.ascii_wstring_to_string Unicode.msvc
    (Unicode.ascii_string_to_wstring Unicode.msvc [72; 105; -23; -1]%Z)
  = [72; 105; -23; -1]%Z.
Proof.
  apply (string_survives_wstring Unicode.msvc [72; 105; -23; -1]%Z).
  - simpl. lia.
  - repeat constructor; simpl; lia.
Defined.

(** X8: narrowing a wide string and widening it again gives the wide
    string back when all its characters are ASCII (0 to 127). *)
Theorem ascii_wstring_survives_string (pf : Unicode.Platform) (wstr : list Z) :
  (8 <= Unicode.wchar_bits pf)%Z ->
  Forall (fun z => 0 <= z < 128)%Z wstr ->
  Unicode.ascii_string_to_wstring pf (Unicode.ascii_wstring_to_string pf wstr) = wstr.
Proof.
  intros Hw Hall. unfold Unicode.ascii_wstring_to_string, Unicode.ascii_string_to_wstring.
  induction Hall as [|z wstr Hz _ IH]; [reflexivity|].
  simpl. rewrite IH. f_equal. by apply widen_narrow_ascii.
Qed.

Lemma ascii_wstring_survives_string_witness :
  Unicode.ascii_string_to_wstring Unicode.linux
    (Unicode.ascii_wstring_to_string Unicode.linux [83; 113; 0; 127]%Z)
  = [83; 113; 0; 127]%Z.
Proof.
  apply (ascii_wstring_survives_string Unicode.linux [83; 113; 0; 127]%Z).
  - simpl. lia.
  - repeat constructor; lia.
Defined.

Lemma widen_narrow_signed (pf : Unicode.Platform) (z : Z) :
  Unicode.char_signed pf = true -> Unicode.wchar_signed pf = true ->
  (8 <= Unicode.wchar_bits pf)%Z ->
  (-128 <= Unicode.convert (Unicode.wchar_signed pf) (Unicode.wchar_bits pf)
             (Unicode.convert (Unicode.char_signed pf) 8 z) < 128)%Z.
Proof.
  intros Hc Hs Hw.
  pose proof (convert_in_range (Unicode.char_signed pf) 8 z ltac:(lia)) as Hr.
  rewrite Hc in Hr. unfold Unicode.in_range in Hr. change (2 ^ (8 - 1))%Z with 128%Z in Hr.
  pose proof (pow2_ge_128 _ Hw) as H128.
  rewrite (convert_id (Unicode.wchar_signed pf)); [by rewrite Hc|lia|].
  rewrite Hs, Hc. unfold Unicode.in_range. lia.
Qed.

(** X9: where [char] and [wchar_t] are both signed, the conversions work
    for ASCII only, as the comment on them says: a wide string of
    non-negative characters comes back from narrowing and widening
    unchanged exactly when all its characters are below 128. *)
Theorem wstring_survives_iff_ascii (pf : Unicode.Platform) (wstr : list Z) :
  Unicode.char_signed pf = true -> Unicode.wchar_signed pf = true ->
  (8 <= Unicode.wchar_bits pf)%Z ->
  Forall (fun z => 0 <= z)%Z wstr ->
  Unicode.ascii_string_to_wstring pf (Unicode.ascii_wstring_to_string pf wstr) = wstr
  <-> Forall (fun z => z < 128)%Z wstr.
Proof.
  intros Hc Hs Hw Hpos. split.
  - unfold Unicode.ascii_wstring_to_string, Unicode.ascii_string_to_wstring.
    induction Hpos as [|z wstr Hz _ IH]; [constructor|].
    simpl. intros [= Hhead Htail]. constructor; [|by apply IH].
    pose proof (widen_narrow_signed pf z Hc Hs Hw) as Hb. rewrite Hhead in Hb. lia.
  - intros Hlt. apply ascii_wstring_survives_string; [done|].
    apply Forall_forall. intros z Hz.
    rewrite Forall_forall in Hpos, Hlt. split; [by apply Hpos | by apply Hlt].
Qed.

Lemma wstring_survives_iff_ascii_witness :
  Unicode.ascii_string_to_wstring Unicode.linux
    (Unicode.ascii_wstring_to_string Unicode.linux [72; 9786]%Z)
  <> [72; 9786]%Z.
Proof.
  intros Heq.
  apply (wstring_survives_iff_ascii Unicode.linux [72; 9786]%Z eq_refl eq_refl) in Heq.
  - apply Forall_cons in Heq as [_ Heq]. apply Forall_cons in Heq as [Heq _]. lia.
  - simpl. lia.
  - repeat constructor; lia.
Defined.

(** ** Ownership *)

Import Ownership.

Lemma elem_of_holders (a P rc : N) (s : Store) :
  a ∈ holders P rc s <-> handles s !! a = Some (mk P rc).
Proof.
  unfold holders. rewrite elem_of_dom. split.
  - intros [h Hh]. apply map_lookup_filter_Some in Hh as [Hh Heq]. simpl in Heq. by subst.
  - intros Hh. exists (mk P rc). by apply map_lookup_filter_Some.
Qed.

Lemma holders_size_le (P rc : N) (s : Store) :
  size (holders P rc s) <= size (handles s).
Proof.
  rewrite <- (size_dom (handles s)). apply subseteq_size.
  intros a Ha. apply elem_of_holders in Ha. apply elem_of_dom. by eexists.
Qed.

Lemma holders_insert_same (a P rc : N) (s s' : Store) :
  handles s' = <[a := mk P rc]> (handles s) ->
  holders P rc s' = {[a]} ∪ holders P rc s.
Proof.
  intros Hs'. apply set_eq. intros x.
  rewrite elem_of_union, elem_of_singleton, !elem_of_holders, Hs'.
  destruct (decide (x = a)) as [->|Hne].
  - rewrite lookup_insert_eq. tauto.
  - rewrite lookup_insert_ne by done. tauto.
Qed.

Lemma holders_insert_other (a P rc : N) (h : t) (s s' : Store) :
  handles s' = <[a := h]> (handles s) -> h <> mk P rc ->
  holders P rc s' = holders P rc s ∖ {[a]}.
Proof.
  intros Hs' Hh. apply set_eq. intros x.
  rewrite elem_of_difference, elem_of_singleton, !elem_of_holders, Hs'.
  destruct (decide (x = a)) as [->|Hne].
  - rewrite lookup_insert_eq. split; [intros [= ?]; done | tauto].
  - rewrite lookup_insert_ne by done. tauto.
Qed.

Lemma holders_delete (a P rc : N) (s s' : Store) :
  handles s' = delete a (handles s) ->
  holders P rc s' = holders P rc s ∖ {[a]}.
Proof.
  intros Hs'. apply set_eq. intros x.
  rewrite elem_of_difference, elem_of_singleton, !elem_of_holders, Hs'.
  destruct (decide (x = a)) as [->|Hne].
  - rewrite lookup_delete_eq. split; [done | tauto].
  - rewrite lookup_delete_ne by done. tauto.
Qed.

Lemma holders_without (a P rc : N) (s : Store) :
  handles s !! a <> Some (mk P rc) -> holders P rc s ∖ {[a]} = holders P rc s.
Proof.
  intros Hne. apply set_eq. intros x.
  rewrite elem_of_difference, elem_of_singleton, !elem_of_holders.
  split; [tauto|]. intros Hx. split; [done|]. intros ->. done.
Qed.

Lemma holders_size_add (a P rc : N) (s : Store) :
  handles s !! a <> Some (mk P rc) ->
  size ({[a]} ∪ holders P rc s) = S (size (holders P rc s)).
Proof.
  intros Hne. rewrite size_union, size_singleton; [done|].
  apply disjoint_singleton_l. by rewrite elem_of_holders.
Qed.

Lemma holders_size_remove (a P rc : N) (s : Store) :
  handles s !! a = Some (mk P rc) ->
  size (holders P rc s ∖ {[a]}) = size (holders P rc s) - 1.
Proof.
  intros Ha. rewrite size_difference, size_singleton; [done|].
  apply singleton_subseteq_l. by apply elem_of_holders.
Qed.

Lemma handle_eta (h : t) : h = mk (m_Ptr h) (m_RefCount h).
Proof. by destruct h. Qed.

(** The start of everything: no handle, no counter. *)
Lemma wf_start (objs : gset N) : wf (start objs).
Proof.
  split; simpl.
  - intros a h Hh. by rewrite lookup_empty in Hh.
  - intros a b ha hb Hh. by rewrite lookup_empty in Hh.
  - rewrite map_size_empty. unfold UINT_MODULUS. lia.
  - intros rc c Hc. by rewrite lookup_empty in Hc.
  - split; [constructor|]. intros p Hp. by apply elem_of_nil in Hp.
Qed.

(** *** The calls keep the invariant *)

Lemma wf_add_empty (a : N) (h0 : t) (s : Store) :
  wf s -> handles s !! a = None -> m_Ptr h0 = NULL -> room s ->
  wf (set_handle a h0 s).
Proof.
  intros [Hown Hpair Hroom Hcnt Hdel] Ha Hnull Hr.
  assert (Hhold : forall P rc, P <> NULL ->
            holders P rc (set_handle a h0 s) = holders P rc s).
  { intros P rc HP.
    rewrite (holders_insert_other a P rc h0 s) by (done || (intros ->; done)).
    apply holders_without. by rewrite Ha. }
  assert (Hold : forall x h, handles (set_handle a h0 s) !! x = Some h ->
            m_Ptr h <> NULL -> handles s !! x = Some h).
  { intros x h Hx Hh. simpl in Hx. destruct (decide (a = x)) as [->|Hne].
    - rewrite lookup_insert_eq in Hx. by injection Hx as <-.
    - by rewrite lookup_insert_ne in Hx. }
  split.
  - intros x h Hx Hh. rewrite Hhold by done. apply (Hown x); [by apply Hold | done].
  - intros x y hx hy Hx Hy Hhx Hhy. apply (Hpair x y); auto.
  - simpl. rewrite map_size_insert_None by done. unfold room in Hr. lia.
  - intros rc c Hc. destruct (Hcnt rc c Hc) as (x & h & Hx & Hh & Hrc).
    exists x, h. split; [|done]. simpl. rewrite lookup_insert_ne; [done|].
    intros ->. by rewrite Ha in Hx.
  - exact Hdel.
Qed.

Lemma wf_join (a b P rc : N) (s : Store) :
  wf s -> handles s !! a = None -> handles s !! b = Some (mk P rc) ->
  P <> NULL -> room s ->
  exists c, counters s !! rc = Some c /\ (0 <= c < UINT_MODULUS - 1)%Z /\
    wf (mkStore (<[a := mk P rc]> (handles s)) (<[rc := (c + 1)%Z]> (counters s))
          (pointees s) (deleted s)).
Proof.
  intros [Hown Hpair Hroom Hcnt Hdel] Ha Hb HP Hr.
  destruct (Hown b _ Hb HP) as [Hlive Hc]. simpl in Hlive, Hc.
  eexists. split; [exact Hc|].
  pose proof (holders_size_le P rc s) as Hle. unfold room in Hr.
  split; [lia|].
  set (s' := mkStore _ _ _ _).
  assert (Hgrow : holders P rc s' = {[a]} ∪ holders P rc s)
    by (by apply holders_insert_same).
  assert (Hsize : size (holders P rc s') = S (size (holders P rc s))).
  { rewrite Hgrow. apply holders_size_add. by rewrite Ha. }
  assert (Hrest : forall Q rq, mk Q rq <> mk P rc -> holders Q rq s' = holders Q rq s).
  { intros Q rq Hne. rewrite (holders_insert_other a Q rq (mk P rc) s) by done.
    apply holders_without. by rewrite Ha. }
  assert (Hold : forall x h, handles s' !! x = Some h -> x <> a -> handles s !! x = Some h).
  { intros x h Hx Hne. simpl in Hx. by rewrite lookup_insert_ne in Hx. }
  assert (Hnew : forall h, handles s' !! a = Some h -> h = mk P rc).
  { intros h Hx. simpl in Hx. rewrite lookup_insert_eq in Hx. by injection Hx. }
  assert (Hview : forall x h, handles s' !! x = Some h -> m_Ptr h <> NULL ->
            exists y, handles s !! y = Some h).
  { intros x h Hx Hh. destruct (decide (x = a)) as [->|Hne].
    - rewrite (Hnew _ Hx). by exists b.
    - exists x. by apply Hold. }
  split.
  - intros x h Hx Hh. destruct (Hview x h Hx Hh) as [y Hy].
    destruct (Hown y h Hy Hh) as [Hl Hch]. split; [done|]. simpl.
    destruct (decide (m_RefCount h = rc)) as [Hrc|Hrc].
    + assert (HPh : m_Ptr h = P) by (apply (Hpair y b h (mk P rc)); done).
      rewrite Hrc, HPh, lookup_insert_eq, Hsize. f_equal. lia.
    + rewrite lookup_insert_ne by done. rewrite Hrest; [done|].
      intros Heq. apply Hrc. by rewrite (handle_eta h) in Heq; injection Heq.
  - intros x y hx hy Hx Hy Hhx Hhy.
    destruct (Hview x hx Hx Hhx) as [x' Hx']. destruct (Hview y hy Hy Hhy) as [y' Hy'].
    by apply (Hpair x' y').
  - simpl. rewrite map_size_insert_None by done. lia.
  - intros rq c Hq. simpl in Hq. destruct (decide (rq = rc)) as [->|Hne].
    + exists a, (mk P rc). simpl. by rewrite lookup_insert_eq.
    + rewrite lookup_insert_ne in Hq by done.
      destruct (Hcnt rq c Hq) as (x & h & Hx & Hh & Hrq).
      exists x, h. split; [|done]. simpl. rewrite lookup_insert_ne; [done|].
      intros ->. by rewrite Ha in Hx.
  - exact Hdel.
Qed.

Lemma wf_new (a P rc : N) (s : Store) :
  wf s -> handles s !! a = None -> P <> NULL -> P ∈ pointees s ->
  ~ held P s -> counters s !! rc = None -> room s ->
  wf (mkStore (<[a := mk P rc]> (handles s)) (<[rc := 1%Z]> (counters s))
        (pointees s) (deleted s)).
Proof.
  intros [Hown Hpair Hroom Hcnt Hdel] Ha HP Hlive Hfree Hrc Hr.
  set (s' := mkStore _ _ _ _).
  assert (Hnone : holders P rc s = ∅).
  { apply set_eq. intros x. rewrite elem_of_holders. split; [|by intros ?%not_elem_of_empty].
    intros Hx. destruct Hfree. by exists x, (mk P rc). }
  assert (Hone : size (holders P rc s') = 1).
  { rewrite (holders_insert_same a P rc s) by done.
    by rewrite Hnone, union_empty_r_L, size_singleton. }
  assert (Hrest : forall Q rq, mk Q rq <> mk P rc -> holders Q rq s' = holders Q rq s).
  { intros Q rq Hne. rewrite (holders_insert_other a Q rq (mk P rc) s) by done.
    apply holders_without. by rewrite Ha. }
  assert (Hold : forall x h, handles s' !! x = Some h -> x <> a -> handles s !! x = Some h).
  { intros x h Hx Hne. simpl in Hx. by rewrite lookup_insert_ne in Hx. }
  assert (Hnew : forall h, handles s' !! a = Some h -> h = mk P rc).
  { intros h Hx. simpl in Hx. rewrite lookup_insert_eq in Hx. by injection Hx. }
  assert (Hother : forall x h, handles s !! x = Some h -> m_Ptr h <> NULL ->
            m_Ptr h <> P /\ m_RefCount h <> rc).
  { intros x h Hx Hh. split.
    - intros Heq. destruct Hfree. by exists x, h.
    - intros Heq. destruct (Hown x h Hx Hh) as [_ Hc]. rewrite Heq, Hrc in Hc. done. }
  split.
  - intros x h Hx Hh. destruct (decide (x = a)) as [->|Hne].
    + rewrite (Hnew _ Hx). simpl. by rewrite lookup_insert_eq, Hone.
    + apply Hold in Hx; [|done]. destruct (Hown x h Hx Hh) as [Hl Hc].
      destruct (Hother x h Hx Hh) as [HnP Hnrc].
      split; [done|]. simpl. rewrite lookup_insert_ne by done.
      rewrite Hrest; [done|]. intros Heq. apply Hnrc.
      by rewrite (handle_eta h) in Heq; injection Heq.
  - intros x y hx hy Hx Hy Hhx Hhy.
    destruct (decide (x = a)) as [->|Hnx]; destruct (decide (y = a)) as [->|Hny].
    + by rewrite (Hnew _ Hx), (Hnew _ Hy).
    + rewrite (Hnew _ Hx). simpl. apply Hold in Hy; [|done].
      destruct (Hother y hy Hy Hhy). split; intros Heq; by symmetry in Heq.
    + rewrite (Hnew _ Hy). simpl. apply Hold in Hx; [|done].
      destruct (Hother x hx Hx Hhx). split; intros Heq; done.
    + apply (Hpair x y); auto.
  - simpl. rewrite map_size_insert_None by done. unfold room in Hr. lia.
  - intros rq c Hq. simpl in Hq. destruct (decide (rq = rc)) as [->|Hne].
    + exists a, (mk P rc). simpl. by rewrite lookup_insert_eq.
    + rewrite lookup_insert_ne in Hq by done.
      destruct (Hcnt rq c Hq) as (x & h & Hx & Hh & Hrq).
      exists x, h. split; [|done]. simpl. rewrite lookup_insert_ne; [done|].
      intros ->. by rewrite Ha in Hx.
  - exact Hdel.
Qed.

Lemma wf_remove_empty (a : N) (h : t) (s : Store) :
  wf s -> handles s !! a = Some h -> m_Ptr h = NULL -> wf (drop_handle a s).
Proof.
  intros [Hown Hpair Hroom Hcnt Hdel] Ha Hnull.
  assert (Hhold : forall P rc, P <> NULL ->
            holders P rc (drop_handle a s) = holders P rc s).
  { intros P rc HP. rewrite (holders_delete a P rc s) by done.
    apply holders_without. rewrite Ha. intros [= ->]. done. }
  assert (Hold : forall x hx, handles (drop_handle a s) !! x = Some hx ->
            x <> a /\ handles s !! x = Some hx).
  { intros x hx Hx. simpl in Hx. destruct (decide (a = x)) as [->|Hne].
    - by rewrite lookup_delete_eq in Hx.
    - by rewrite lookup_delete_ne in Hx. }
  split.
  - intros x hx Hx Hh. apply Hold in Hx as [_ Hx]. rewrite Hhold by done. by apply (Hown x).
  - intros x y hx hy Hx Hy. apply Hold in Hx as [_ Hx]. apply Hold in Hy as [_ Hy].
    by apply (Hpair x y).
  - simpl. pose proof (map_size_delete a (handles s)) as Hsz. rewrite Ha in Hsz. lia.
  - intros rc c Hc. destruct (Hcnt rc c Hc) as (x & hx & Hx & Hh & Hrc).
    exists x, hx. split; [|done]. simpl. rewrite lookup_delete_ne; [done|].
    intros ->. rewrite Ha in Hx. injection Hx as ->. done.
  - exact Hdel.
Qed.

Lemma wf_remove_shared (a P rc : N) (s : Store) :
  wf s -> handles s !! a = Some (mk P rc) -> P <> NULL ->
  size (holders P rc s) <> 1 ->
  wf (mkStore (delete a (handles s))
        (<[rc := (Z.of_nat (size (holders P rc s)) - 1)%Z]> (counters s))
        (pointees s) (deleted s)).
Proof.
  intros [Hown Hpair Hroom Hcnt Hdel] Ha HP Hmany.
  set (s' := mkStore _ _ _ _).
  assert (Hin : a ∈ holders P rc s) by (by apply elem_of_holders).
  assert (Hpos : 2 <= size (holders P rc s)).
  { assert (size (holders P rc s) <> 0); [|lia].
    intros H0. apply size_empty_inv in H0. rewrite H0 in Hin.
    by apply not_elem_of_empty in Hin. }
  assert (Hless : size (holders P rc s') = size (holders P rc s) - 1).
  { rewrite (holders_delete a P rc s) by done. by apply holders_size_remove. }
  assert (Hrest : forall Q rq, mk Q rq <> mk P rc -> holders Q rq s' = holders Q rq s).
  { intros Q rq Hne. rewrite (holders_delete a Q rq s) by done.
    apply holders_without. rewrite Ha. intros [= Heq1 Heq2]. apply Hne. by subst. }
  assert (Hold : forall x hx, handles s' !! x = Some hx ->
            x <> a /\ handles s !! x = Some hx).
  { intros x hx Hx. simpl in Hx. destruct (decide (a = x)) as [->|Hne].
    - by rewrite lookup_delete_eq in Hx.
    - by rewrite lookup_delete_ne in Hx. }
  split.
  - intros x hx Hx Hh. apply Hold in Hx as [Hne Hx].
    destruct (Hown x hx Hx Hh) as [Hl Hc]. split; [done|]. simpl.
    destruct (decide (m_RefCount hx = rc)) as [Hrc|Hrc].
    + assert (HPh : m_Ptr hx = P) by (apply (Hpair x a hx (mk P rc)); done).
      rewrite Hrc, HPh, lookup_insert_eq, Hless. f_equal. lia.
    + rewrite lookup_insert_ne by done. rewrite Hrest; [done|].
      intros Heq. apply Hrc. by rewrite (handle_eta hx) in Heq; injection Heq.
  - intros x y hx hy Hx Hy. apply Hold in Hx as [_ Hx]. apply Hold in Hy as [_ Hy].
    by apply (Hpair x y).
  - simpl. pose proof (map_size_delete a (handles s)) as Hsz. rewrite Ha in Hsz. lia.
  - intros rq c Hq. simpl in Hq. destruct (decide (rq = rc)) as [->|Hne].
    + assert (Hsome : exists x, x ∈ holders P rc s').
      { apply size_pos_elem_of. lia. }
      destruct Hsome as [x Hx]. apply elem_of_holders in Hx.
      by exists x, (mk P rc).
    + rewrite lookup_insert_ne in Hq by done.
      destruct (Hcnt rq c Hq) as (x & hx & Hx & Hh & Hrq).
      exists x, hx. split; [|done]. simpl. rewrite lookup_delete_ne; [done|].
      intros ->. rewrite Ha in Hx. injection Hx as <-. simpl in Hrq. done.
  - exact Hdel.
Qed.

Lemma wf_remove_sole (a P rc : N) (s : Store) :
  wf s -> handles s !! a = Some (mk P rc) -> P <> NULL ->
  size (holders P rc s) = 1 ->
  wf (mkStore (delete a (handles s)) (delete rc (counters s))
        (pointees s ∖ {[P]}) (P :: deleted s)).
Proof.
  intros [Hown Hpair Hroom Hcnt [Hnd Hgone]] Ha HP Hone.
  set (s' := mkStore _ _ _ _).
  assert (Hin : a ∈ holders P rc s) by (by apply elem_of_holders).
  assert (Honly : forall x, handles s !! x = Some (mk P rc) -> x = a).
  { intros x Hx. apply elem_of_holders in Hx.
    apply size_1_elem_of in Hone as [y Hy].
    rewrite Hy in Hx, Hin. apply elem_of_singleton in Hx, Hin. congruence. }
  assert (Hrest : forall Q rq, mk Q rq <> mk P rc -> holders Q rq s' = holders Q rq s).
  { intros Q rq Hne. rewrite (holders_delete a Q rq s) by done.
    apply holders_without. rewrite Ha. intros [= Heq1 Heq2]. apply Hne. by subst. }
  assert (Hold : forall x hx, handles s' !! x = Some hx ->
            x <> a /\ handles s !! x = Some hx).
  { intros x hx Hx. simpl in Hx. destruct (decide (a = x)) as [->|Hne].
    - by rewrite lookup_delete_eq in Hx.
    - by rewrite lookup_delete_ne in Hx. }
  assert (Hother : forall x hx, x <> a -> handles s !! x = Some hx -> m_Ptr hx <> NULL ->
            m_Ptr hx <> P /\ m_RefCount hx <> rc).
  { intros x hx Hne Hx Hh.
    assert (Hrc : m_RefCount hx <> rc).
    { intros Hrc. apply Hne, Honly.
      assert (HPh : m_Ptr hx = P) by (apply (Hpair x a hx (mk P rc)); done).
      by rewrite (handle_eta hx), HPh, Hrc in Hx. }
    split; [|done]. intros HPh. apply Hrc. by apply (Hpair x a hx (mk P rc)). }
  destruct (Hown a _ Ha HP) as [Hlive _]. simpl in Hlive.
  split.
  - intros x hx Hx Hh. apply Hold in Hx as [Hne Hx].
    destruct (Hown x hx Hx Hh) as [Hl Hc].
    destruct (Hother x hx Hne Hx Hh) as [HnP Hnrc]. simpl. split.
    + apply elem_of_difference. split; [done|]. by rewrite elem_of_singleton.
    + rewrite lookup_delete_ne by done. rewrite Hrest; [done|].
      intros Heq. apply Hnrc. by rewrite (handle_eta hx) in Heq; injection Heq.
  - intros x y hx hy Hx Hy. apply Hold in Hx as [_ Hx]. apply Hold in Hy as [_ Hy].
    by apply (Hpair x y).
  - simpl. pose proof (map_size_delete a (handles s)) as Hsz. rewrite Ha in Hsz. lia.
  - intros rq c Hq. simpl in Hq.
    destruct (decide (rq = rc)) as [->|Hne]; [by rewrite lookup_delete_eq in Hq|].
    rewrite lookup_delete_ne in Hq by done.
    destruct (Hcnt rq c Hq) as (x & hx & Hx & Hh & Hrq).
    exists x, hx. split; [|done]. simpl. rewrite lookup_delete_ne; [done|].
    intros ->. rewrite Ha in Hx. injection Hx as <-. simpl in Hrq. done.
  - simpl. split.
    + constructor; [|done]. intros Hp. by apply (Hgone P).
    + intros p Hp. rewrite elem_of_difference, elem_of_singleton.
      apply elem_of_cons in Hp as [->|Hp]; [tauto|]. intros [Hl _]. by apply (Hgone p).
Qed.

Lemma keeps_refl (s : Store) : keeps s s.
Proof. split; auto. Qed.

Lemma keeps_trans (s1 s2 s3 : Store) : keeps s1 s2 -> keeps s2 s3 -> keeps s1 s3.
Proof.
  intros [H1 D1] [H2 D2]. split; [|auto].
  intros Q HQ Hheld. destruct (H1 Q HQ Hheld) as [Hh|Hd]; [by apply H2 | right; auto].
Qed.

(** A change of the handles that leaves the other addresses alone and puts
    no pointee out of reach. *)
Lemma keeps_at (a : N) (s s' : Store) :
  (forall x, x <> a -> handles s' !! x = handles s !! x) ->
  (forall h, handles s !! a = Some h -> m_Ptr h <> NULL ->
     held (m_Ptr h) s' \/ m_Ptr h ∈ deleted s') ->
  (forall p, p ∈ deleted s -> p ∈ deleted s') ->
  keeps s s'.
Proof.
  intros Hsame Hat Hdel. split; [|done].
  intros Q HQ (x & h & Hx & Hh). destruct (decide (x = a)) as [->|Hne].
  - subst Q. by apply Hat.
  - left. exists x, h. by rewrite Hsame.
Qed.

Lemma destroy_safe (a : N) (s : Store) :
  wf s -> is_Some (handles s !! a) ->
  exists s', destroy a s = Some s' /\ wf s' /\ keeps s s' /\
             handles s' = delete a (handles s) /\
             (forall p, p ∈ deleted s' -> p ∈ deleted s \/ (p <> NULL /\ held p s)).
Proof.
  intros Hwf [h Ha].
  destruct (decide (m_Ptr h = NULL)) as [Hnull|HP].
  { exists (drop_handle a s). split; [|split; [|split; [|split]]].
    - unfold destroy. by rewrite (Reset_empty _ _ _ Ha Hnull).
    - by apply (wf_remove_empty a h).
    - apply (keeps_at a); simpl; [|congruence|done].
      intros x Hne. by rewrite lookup_delete_ne.
    - done.
    - intros p Hp. by left. }
  rewrite (handle_eta h) in Ha. set (P := m_Ptr h) in *. set (rc := m_RefCount h) in *.
  destruct (wf_owner s Hwf a _ Ha HP) as [Hlive Hc]. simpl in Hlive, Hc.
  pose proof (holders_size_le P rc s) as Hle. pose proof (wf_room s Hwf) as Hroom.
  assert (Hin : a ∈ holders P rc s) by (by apply elem_of_holders).
  destruct (decide (size (holders P rc s) = 1)) as [Hone|Hmany].
  - eexists. split; [|split; [|split; [|split]]].
    + apply (destroy_last a P rc s); try done. by rewrite Hc, Hone.
    + by apply wf_remove_sole.
    + apply (keeps_at a); simpl.
      * intros x Hne. by rewrite lookup_delete_ne.
      * intros h' Ha' _. rewrite Ha in Ha'. injection Ha' as <-. right. simpl. left.
      * intros p Hp. by right.
    + done.
    + simpl. intros p [->|Hp]%elem_of_cons; [|by left].
      right. split; [done|]. by exists a, (mk P rc).
  - assert (Hpos : 2 <= size (holders P rc s)).
    { assert (size (holders P rc s) <> 0); [|lia].
      intros H0. apply size_empty_inv in H0. rewrite H0 in Hin.
      by apply not_elem_of_empty in Hin. }
    eexists. split; [|split; [|split; [|split]]].
    + apply (destroy_not_last a P rc _ s Ha HP Hc). lia.
    + by apply wf_remove_shared.
    + apply (keeps_at a); simpl; [| |done].
      * intros x Hne. by rewrite lookup_delete_ne.
      * intros h' Ha' _. rewrite Ha in Ha'. injection Ha' as <-. left. simpl.
        assert (Hsome : exists x, x ∈ holders P rc s ∖ {[a]}).
        { apply size_pos_elem_of. rewrite holders_size_remove by done. lia. }
        destruct Hsome as [x [Hx Hne]%elem_of_difference].
        apply elem_of_holders in Hx. rewrite elem_of_singleton in Hne.
        exists x, (mk P rc). simpl. by rewrite lookup_delete_ne.
    + done.
    + intros p Hp. by left.
Qed.

Lemma copy_safe (a b : N) (s : Store) :
  wf s -> handles s !! a = None -> is_Some (handles s !! b) -> room s ->
  exists s', SharedPtr_copy a b s = Some s' /\ wf s' /\ keeps s s' /\
             (forall h, handles s !! b = Some h -> m_Ptr h <> NULL ->
                handles s' !! a = Some h) /\
             deleted s' = deleted s /\
             (forall Q, Q <> NULL -> held Q s' -> held Q s).
Proof.
  intros Hwf Ha [h Hb] Hr.
  destruct (decide (m_Ptr h = NULL)) as [Hnull|HP].
  { exists (set_handle a (mk NULL NULL) s). split; [|split; [|split; [|split; [|split]]]].
    - unfold SharedPtr_copy. by apply (share_empty a b h).
    - by apply wf_add_empty.
    - apply (keeps_at a); simpl; [|by rewrite Ha|done].
      intros x Hne. by rewrite lookup_insert_ne.
    - intros h' Hb'. rewrite Hb in Hb'. injection Hb' as <-. done.
    - done.
    - intros Q HQ (x & hx & Hx & Hh). simpl in Hx.
      destruct (decide (a = x)) as [->|Hne].
      + rewrite lookup_insert_eq in Hx. injection Hx as <-. simpl in Hh. by subst.
      + rewrite lookup_insert_ne in Hx by done. by exists x, hx. }
  rewrite (handle_eta h) in Hb. set (P := m_Ptr h) in *. set (rc := m_RefCount h) in *.
  destruct (wf_join a b P rc s Hwf Ha Hb HP Hr) as (c & Hc & Hrange & Hwf').
  eexists. split; [|split; [|split; [|split; [|split]]]].
  - by apply (SharedPtr_copy_increments a b P rc c s).
  - exact Hwf'.
  - apply (keeps_at a); simpl; [|by rewrite Ha|done].
    intros x Hne. by rewrite lookup_insert_ne.
  - intros h' Hb' _. rewrite Hb in Hb'. injection Hb' as <-. simpl.
    by rewrite lookup_insert_eq.
  - done.
  - intros Q HQ (x & hx & Hx & Hh). simpl in Hx.
    destruct (decide (a = x)) as [->|Hne].
    + rewrite lookup_insert_eq in Hx. injection Hx as <-. simpl in Hh.
      by exists b, (mk P rc).
    + rewrite lookup_insert_ne in Hx by done. by exists x, hx.
Qed.

Lemma within_trans (n1 n2 : list N) (s1 s2 s3 : Store) :
  within n1 s1 s2 -> within n2 s2 s3 -> within (n1 ++ n2)%list s1 s3.
Proof.
  intros [H1 D1] [H2 D2]. split.
  - intros Q HQ Hheld. rewrite elem_of_app.
    destruct (H2 Q HQ Hheld) as [Hh|Hn]; [|tauto].
    destruct (H1 Q HQ Hh); tauto.
  - intros p Hp. rewrite elem_of_app.
    destruct (D2 p Hp) as [Hd|[Hne [Hh|Hn]]]; [| |tauto].
    + destruct (D1 p Hd) as [?|[? [?|?]]]; tauto.
    + destruct (H1 p Hne Hh); tauto.
Qed.

Lemma set_handle_drop (a : N) (h : t) (s : Store) :
  set_handle a h (drop_handle a s) = set_handle a h s.
Proof. unfold set_handle, drop_handle. simpl. by rewrite insert_delete_eq. Qed.

Lemma share_after_drop (a b : N) (s : Store) :
  a <> b -> share a b (drop_handle a s) = share a b s.
Proof.
  intros Hne. unfold share.
  replace (handles (drop_handle a s) !! b) with (handles s !! b)
    by (simpl; by rewrite lookup_delete_ne).
  destruct (handles s !! b) as [c|]; [simpl|done].
  by rewrite !set_handle_drop.
Qed.

Lemma operator_assign_unfold (a b : N) (s : Store) :
  a <> b -> operator_assign a b s = destroy a s ≫= SharedPtr_copy a b.
Proof.
  intros Hne. unfold operator_assign, destroy, SharedPtr_copy.
  rewrite decide_True by done.
  destruct (Reset a s) as [s1|]; [simpl|done].
  by rewrite share_after_drop.
Qed.

Lemma Init_unfold (a Q rq : N) (s : Store) :
  Init a Q rq s = destroy a s ≫= SharedPtr_ptr (mk NULL NULL) a Q rq.
Proof.
  unfold destroy. destruct (Reset a s) as [s1|] eqn:Hr; [|unfold Init; by rewrite Hr].
  rewrite (Init_after_Reset _ _ _ _ _ Hr). simpl.
  rewrite SharedPtr_ptr_on_null_storage. simpl. by rewrite insert_delete_eq.
Qed.

Lemma default_safe (a : N) (s : Store) :
  wf s -> handles s !! a = None -> room s ->
  wf (SharedPtr_default a s) /\ keeps s (SharedPtr_default a s) /\
  within [] s (SharedPtr_default a s).
Proof.
  intros Hwf Ha Hr. split; [by apply wf_add_empty|]. split.
  - apply (keeps_at a); simpl; [|by rewrite Ha|done].
    intros x Hne. by rewrite lookup_insert_ne.
  - split; [|intros p Hp; by left].
    intros Q HQ (x & hx & Hx & Hh). left. simpl in Hx.
    destruct (decide (a = x)) as [->|Hne].
    + rewrite lookup_insert_eq in Hx. injection Hx as <-. simpl in Hh. by subst.
    + rewrite lookup_insert_ne in Hx by done. by exists x, hx.
Qed.

Lemma from_ptr_safe (junk : t) (a P rc : N) (s : Store) :
  wf s -> valid_call (CallFromPtr junk a P rc) s ->
  exists s', SharedPtr_ptr junk a P rc s = Some s' /\ wf s' /\ keeps s s' /\
             within [P] s s' /\ handles s' !! a = Some (mk P rc).
Proof.
  intros Hwf (Hjunk & Ha & Hr & HP & Hlive & Hfree & Hrc).
  exists (mkStore (<[a := mk P rc]> (handles s)) (<[rc := 1%Z]> (counters s))
            (pointees s) (deleted s)).
  split; [|split; [|split; [|split]]].
  - unfold SharedPtr_ptr.
    rewrite (Init_after_Reset _ _ _ _ (set_handle a junk s)).
    + simpl. by rewrite insert_insert_eq.
    + apply (Reset_empty _ junk); [apply lookup_insert_eq | done].
  - by apply wf_new.
  - apply (keeps_at a); simpl; [|by rewrite Ha|done].
    intros x Hne. by rewrite lookup_insert_ne.
  - split; [|intros p Hp; by left].
    intros Q HQ (x & hx & Hx & Hh). simpl in Hx.
    destruct (decide (a = x)) as [->|Hne].
    + rewrite lookup_insert_eq in Hx. injection Hx as <-. simpl in Hh. subst.
      right. by apply list_elem_of_singleton.
    + rewrite lookup_insert_ne in Hx by done. left. by exists x, hx.
  - simpl. apply lookup_insert_eq.
Qed.

Lemma Reset_safe (a : N) (s : Store) :
  wf s -> valid_call (CallReset a) s ->
  exists s', Reset a s = Some s' /\ wf s' /\ keeps s s' /\ within [] s s'.
Proof.
  intros Hwf (h & Ha & Hcase).
  destruct (decide (m_Ptr h = NULL)) as [Hnull|HP].
  { exists s. split; [by apply (Reset_empty _ h)|]. split; [done|].
    split; [apply keeps_refl|]. split; [intros; by left | intros; by left]. }
  destruct Hcase as [?|Hc1]; [done|].
  rewrite (handle_eta h) in Ha. set (P := m_Ptr h) in *. set (rc := m_RefCount h) in *.
  destruct (wf_owner s Hwf a _ Ha HP) as [Hlive Hc]. simpl in Hlive, Hc.
  assert (Hone : size (holders P rc s) = 1).
  { rewrite Hc1 in Hc. injection Hc. lia. }
  pose proof (wf_remove_sole a P rc s Hwf Ha HP Hone) as Hwf1.
  eexists. split; [by apply (Reset_sole a P rc s)|].
  split; [|split].
  - match goal with |- wf ?s2 =>
      replace s2 with (set_handle a (mk NULL NULL)
        (mkStore (delete a (handles s)) (delete rc (counters s))
           (pointees s ∖ {[P]}) (P :: deleted s)))
        by (unfold set_handle; simpl; by rewrite insert_delete_eq) end.
    apply wf_add_empty; [done|simpl; apply lookup_delete_eq|done|].
    unfold room. simpl.
    pose proof (map_size_delete a (handles s)) as Hsz. rewrite Ha in Hsz.
    pose proof (wf_room s Hwf).
    assert (size (handles s) <> 0); [|lia].
    intros H0. apply map_size_empty_inv in H0. by rewrite H0, lookup_empty in Ha.
  - apply (keeps_at a); simpl.
    + intros x Hne. by rewrite lookup_insert_ne.
    + intros h' Ha' _. rewrite Ha in Ha'. injection Ha' as <-. right. simpl. left.
    + intros p Hp. by right.
  - split.
    + intros Q HQ (x & hx & Hx & Hh). left. simpl in Hx.
      destruct (decide (a = x)) as [->|Hne].
      * rewrite lookup_insert_eq in Hx. injection Hx as <-. simpl in Hh. by subst.
      * rewrite lookup_insert_ne in Hx by done. by exists x, hx.
    + simpl. intros p [->|Hp]%elem_of_cons; [|by left].
      right. split; [done|]. left. by exists a, (mk P rc).
Qed.

Lemma assign_safe (a b : N) (s : Store) :
  wf s -> is_Some (handles s !! a) -> is_Some (handles s !! b) ->
  exists s', operator_assign a b s = Some s' /\ wf s' /\ keeps s s' /\ within [] s s'.
Proof.
  intros Hwf Ha Hb. destruct (decide (a = b)) as [<-|Hne].
  { exists s. split; [unfold operator_assign; by rewrite decide_False by tauto|].
    split; [done|]. split; [apply keeps_refl|]. split; intros; by left. }
  destruct (destroy_safe a s Hwf Ha) as (s1 & Hd & Hwf1 & Hk1 & Hh1 & Hdel1).
  assert (Ha1 : handles s1 !! a = None) by (rewrite Hh1; apply lookup_delete_eq).
  assert (Hb1 : is_Some (handles s1 !! b)) by (rewrite Hh1; by rewrite lookup_delete_ne).
  assert (Hroom1 : room s1).
  { unfold room. rewrite Hh1. destruct Ha as [h Ha].
    pose proof (map_size_delete a (handles s)) as Hsz. rewrite Ha in Hsz.
    pose proof (wf_room s Hwf).
    assert (size (handles s) <> 0); [|lia].
    intros H0. apply map_size_empty_inv in H0. by rewrite H0, lookup_empty in Ha. }
  destruct (copy_safe a b s1 Hwf1 Ha1 Hb1 Hroom1) as (s2 & Hc & Hwf2 & Hk2 & _ & Hdel2 & Hheld2).
  exists s2. split; [by rewrite (operator_assign_unfold a b s Hne), Hd|].
  split; [done|]. split; [by apply (keeps_trans s s1 s2)|].
  split.
  - intros Q HQ Hq. left. destruct (Hheld2 Q HQ Hq) as (x & hx & Hx & Hh).
    rewrite Hh1 in Hx. exists x, hx. split; [|done].
    destruct (decide (a = x)) as [->|Hax]; [by rewrite lookup_delete_eq in Hx|].
    by rewrite lookup_delete_ne in Hx.
  - intros p Hp. rewrite Hdel2 in Hp. destruct (Hdel1 p Hp) as [?|[? ?]]; [by left|].
    right. split; [done|]. by left.
Qed.

(** One valid call: it is defined, keeps the invariant, loses no pointee
    and invents none. *)
Lemma exec_safe (c : call) (s : Store) :
  wf s -> valid_call c s ->
  exists s', exec c s = Some s' /\ wf s' /\ keeps s s' /\ within (adopted [c]) s s' /\
             (forall Q, Q ∈ adopted [c] -> Q <> NULL /\ held Q s').
Proof.
  intros Hwf Hv. destruct c as [a|junk a P rc|a b|a b|a|a]; simpl in *.
  - destruct Hv as [Ha Hr]. destruct (default_safe a s Hwf Ha Hr) as (Hwf' & Hk & Hw).
    eexists. split; [done|]. split; [done|]. split; [done|]. split; [done|].
    intros Q HQ. by apply elem_of_nil in HQ.
  - destruct (from_ptr_safe junk a P rc s Hwf Hv) as (s' & He & Hwf' & Hk & Hw & Hh).
    exists s'. split; [done|]. split; [done|]. split; [done|]. split; [done|].
    intros Q ->%list_elem_of_singleton. split.
    + by destruct Hv as (_ & _ & _ & ? & _).
    + by exists a, (mk P rc).
  - destruct Hv as (Ha & Hb & Hr).
    destruct (copy_safe a b s Hwf Ha Hb Hr) as (s' & He & Hwf' & Hk & _ & Hdel & Hheld).
    exists s'. split; [done|]. split; [done|]. split; [done|]. split.
    + split.
      * intros Q HQ Hq. left. by apply Hheld.
      * intros p Hp. left. by rewrite <- Hdel.
    + intros Q HQ. by apply elem_of_nil in HQ.
  - destruct Hv as [Ha Hb].
    destruct (assign_safe a b s Hwf Ha Hb) as (s' & He & Hwf' & Hk & Hw).
    exists s'. split; [done|]. split; [done|]. split; [done|]. split; [done|].
    intros Q HQ. by apply elem_of_nil in HQ.
  - destruct (Reset_safe a s Hwf Hv) as (s' & He & Hwf' & Hk & Hw).
    exists s'. split; [done|]. split; [done|]. split; [done|]. split; [done|].
    intros Q HQ. by apply elem_of_nil in HQ.
  - destruct (destroy_safe a s Hwf Hv) as (s' & He & Hwf' & Hk & Hh & Hdel).
    exists s'. split; [done|]. split; [done|]. split; [done|]. split.
    + split.
      * intros Q HQ (x & hx & Hx & Hq). left. rewrite Hh in Hx. exists x, hx.
        split; [|done].
        destruct (decide (a = x)) as [->|Hax]; [by rewrite lookup_delete_eq in Hx|].
        by rewrite lookup_delete_ne in Hx.
      * intros p Hp. destruct (Hdel p Hp) as [?|[? ?]]; [by left|].
        right. split; [done|]. by left.
    + intros Q HQ. by apply elem_of_nil in HQ.
Qed.

Lemma adopted_cons (c : call) (cs : list call) :
  adopted (c :: cs) = (adopted [c] ++ adopted cs)%list.
Proof. destruct c; simpl; done. Qed.

(** A valid program: it runs to the end, keeps the invariant, and every
    object it handed to a constructor is held or was deleted. *)
Lemma run_safe (cs : list call) :
  forall s, wf s -> valid_run cs s ->
  exists s', run cs s = Some s' /\ wf s' /\ keeps s s' /\ within (adopted cs) s s' /\
             (forall Q, Q ∈ adopted cs -> Q <> NULL /\ (held Q s' \/ Q ∈ deleted s')).
Proof.
  induction cs as [|c cs IH]; intros s Hwf Hv.
  - exists s. split; [done|]. split; [done|]. split; [apply keeps_refl|].
    split; [split; intros; by left|]. intros Q HQ. by apply elem_of_nil in HQ.
  - destruct Hv as [Hvc Hrest].
    destruct (exec_safe c s Hwf Hvc) as (s1 & He & Hwf1 & Hk1 & Hw1 & Hnew).
    destruct (IH s1 Hwf1 (Hrest s1 He)) as (s2 & Hrun & Hwf2 & Hk2 & Hw2 & Had).
    exists s2. split; [simpl; by rewrite He|]. split; [done|].
    split; [by apply (keeps_trans s s1 s2)|].
    rewrite adopted_cons. split; [by apply (within_trans _ _ s s1 s2)|].
    intros Q [HQ|HQ]%elem_of_app; [|by apply Had].
    destruct (Hnew Q HQ) as [HQn Hheld]. split; [done|].
    by apply (proj1 Hk2).
Qed.

(** *** Pointees with plain destructors

    When the destructors of the pointees leave the store alone, the members
    over [dtor] are the members of [SharedPtr] above. *)

Import Pointee.

Lemma delete_obj_keeps_handles (p : N) (s s1 : Store) :
  delete_obj p s = Some s1 -> handles s1 = handles s /\ counters s1 = counters s.
Proof.
  unfold delete_obj. destruct (decide (p ∈ pointees s)); [|done].
  by intros [= <-].
Qed.

Lemma delete_obj_with_plain (dtor : N -> Store -> option Store) (p : N) (s : Store) :
  plain dtor -> delete_obj_with dtor p s = delete_obj p s.
Proof.
  intros Hplain. unfold delete_obj_with.
  destruct (decide (p ∈ pointees s)) as [Hin|Hout].
  - by rewrite Hplain.
  - unfold delete_obj. by rewrite decide_False.
Qed.

Lemma Reset_with_plain (dtor : N -> Store -> option Store) (this : N) (s : Store) :
  plain dtor -> Reset_with dtor this s = Reset this s.
Proof.
  intros Hplain. unfold Reset_with, Reset.
  destruct (handles s !! this) as [h|] eqn:Hh; [simpl|done].
  destruct (negb (m_Ptr h =? NULL)%N); [|done].
  destruct (load (m_RefCount h) s) as [c|]; [simpl|done].
  destruct (c =? 1)%Z; [|done].
  rewrite (delete_obj_with_plain dtor _ _ Hplain).
  destruct (delete_obj (m_Ptr h) s) as [s1|] eqn:Hd; [simpl|done].
  destruct (delete_obj_keeps_handles _ _ _ Hd) as [Hsame _].
  by rewrite Hsame, Hh.
Qed.

Lemma exec_with_plain (dtor : N -> Store -> option Store) (c : call) (s : Store) :
  plain dtor -> exec_with dtor c s = exec c s.
Proof.
  intros Hplain. destruct c as [a|junk a P rc|a b|a b|a|a]; simpl; try done.
  - unfold SharedPtr_ptr_with, SharedPtr_ptr, Init_with, Init.
    by rewrite (Reset_with_plain dtor _ _ Hplain).
  - unfold operator_assign_with, operator_assign.
    by rewrite (Reset_with_plain dtor _ _ Hplain).
  - by apply Reset_with_plain.
  - unfold destroy_with, destroy. by rewrite (Reset_with_plain dtor _ _ Hplain).
Qed.

Lemma run_with_plain (dtor : N -> Store -> option Store) (cs : list call) :
  plain dtor -> forall s, run_with dtor cs s = run cs s.
Proof.
  intros Hplain. induction cs as [|c cs IH]; intros s; [done|].
  simpl. rewrite (exec_with_plain dtor c s Hplain).
  destruct (exec c s) as [s1|]; [simpl; apply IH | done].
Qed.

Lemma valid_run_with_plain (dtor : N -> Store -> option Store) (cs : list call) :
  plain dtor -> forall s, valid_run_with dtor cs s <-> valid_run cs s.
Proof.
  intros Hplain. induction cs as [|c cs IH]; intros s; [done|].
  simpl. rewrite (exec_with_plain dtor c s Hplain).
  split; intros [Hc Hrest]; (split; [done|]); intros s' Hs'; apply IH; by apply Hrest.
Qed.

(** Where a destructor ends a handle, the calls that were valid above need
    not be defined any more: [a = a->next] at the end of a list deletes the
    node that holds [a->next] and reads it afterwards, while the same calls
    on a plain pointee are defined. *)
Lemma advance_past_end_is_undefined :
  run_with node_dtor advance_past_end (start {[ 7%N ]}) = None /\
  is_Some (run_with plain_dtor advance_past_end (start {[ 7%N ]})).
Proof. split; [vm_compute; reflexivity|]. eexists. vm_compute. reflexivity. Qed.

Lemma filter_absent (p : N) (l : list N) :
  p ∉ l -> filter (fun q => q = p) l = [].
Proof.
  induction l as [|x l IH]; intros Hp; [done|].
  rewrite filter_cons. destruct (decide (x = p)) as [->|Hne].
  - destruct Hp. by left.
  - apply IH. intros Hin. apply Hp. by right.
Qed.

Lemma NoDup_count_one (p : N) (l : list N) :
  NoDup l -> p ∈ l -> length (filter (fun q => q = p) l) = 1.
Proof.
  induction 1 as [|x l Hx Hnd IH]; intros Hp; [by apply elem_of_nil in Hp|].
  rewrite filter_cons. destruct (decide (x = p)) as [->|Hne].
  - simpl. by rewrite filter_absent.
  - apply elem_of_cons in Hp as [->|Hp]; [done|]. by apply IH.
Qed.

(** X10: a program of valid calls on pointees with plain destructors is
    memory safe.  If the destructors of the pointees leave the store alone
    (the pointees have no handles as members), then from a store in which
    the counters count the program runs to its end without undefined
    behaviour; at the end the counters still count, no pointee has been
    deleted twice, and the pointee of every non-empty handle is alive and
    was never deleted. *)
Theorem valid_program_is_safe (dtor : N -> Store -> option Store) (cs : list call)
    (s : Store) :
  plain dtor -> wf s -> valid_run_with dtor cs s ->
  exists s', run_with dtor cs s = Some s' /\ wf s' /\ NoDup (deleted s') /\
    (forall a h, handles s' !! a = Some h -> m_Ptr h <> NULL ->
       m_Ptr h ∈ pointees s' /\ m_Ptr h ∉ deleted s').
Proof.
  intros Hplain Hwf Hv. apply (valid_run_with_plain dtor cs Hplain) in Hv.
  destruct (run_safe cs s Hwf Hv) as (s' & Hrun & Hwf' & _).
  exists s'. split; [by rewrite (run_with_plain dtor cs Hplain)|]. split; [done|].
  destruct (wf_deleted s' Hwf') as [Hnd Hgone]. split; [done|].
  intros a h Ha Hh. destruct (wf_owner s' Hwf' a h Ha Hh) as [Hlive _].
  split; [done|]. intros Hd. by apply (Hgone _ Hd).
Qed.

(** X11: when a valid program on pointees with plain destructors, started
    without handles, has destroyed all its handles, nothing is left behind
    and nothing was deleted by mistake: no counter cell is allocated, every
    object handed to a constructor was deleted exactly once, and nothing
    else was deleted. *)
Theorem all_handles_gone (dtor : N -> Store -> option Store) (objs : gset N)
    (cs : list call) (s' : Store) :
  plain dtor ->
  valid_run_with dtor cs (start objs) ->
  run_with dtor cs (start objs) = Some s' ->
  handles s' = ∅ ->
  counters s' = ∅ /\
  (forall P, P ∈ adopted cs -> destructions P s' = 1) /\
  (forall p, p ∈ deleted s' -> p ∈ adopted cs).
Proof.
  intros Hplain Hv Hrun Hempty.
  apply (valid_run_with_plain dtor cs Hplain) in Hv.
  rewrite (run_with_plain dtor cs Hplain) in Hrun.
  destruct (run_safe cs (start objs) (wf_start objs) Hv)
    as (s2 & Hrun2 & Hwf & _ & [_ Horigin] & Had).
  rewrite Hrun in Hrun2. injection Hrun2 as <-.
  assert (Hnone : forall Q, ~ held Q s').
  { intros Q (a & h & Ha & _). by rewrite Hempty, lookup_empty in Ha. }
  split; [|split].
  - apply map_empty. intros rc. destruct (counters s' !! rc) as [c|] eqn:Hc; [|done].
    destruct (wf_counter s' Hwf rc c Hc) as (a & h & Ha & _).
    by rewrite Hempty, lookup_empty in Ha.
  - intros P HP. destruct (Had P HP) as [_ [Hheld|Hdel]]; [by destruct (Hnone P)|].
    unfold destructions. apply NoDup_count_one; [|done]. apply (wf_deleted s' Hwf).
  - intros p Hp. destruct (Horigin p Hp) as [Hd|[_ [Hheld|Hin]]]; [| |done].
    + by apply elem_of_nil in Hd.
    + destruct Hheld as (a & h & Ha & _). unfold start, initial in Ha. simpl in Ha.
      by rewrite lookup_empty in Ha.
Qed.


(** X13: assignment between two different handles is destruction of the
    target followed by its copy construction from the source: the two
    programs are defined on the same stores and lead to the same store. *)
Theorem assignment_is_destroy_then_copy (a b : N) (s : Store) :
  a <> b ->
  run [CallAssign a b] s = run [CallDestroy a; CallCopy a b] s.
Proof.
  intros Hne. simpl. rewrite (operator_assign_unfold a b s Hne).
  destruct (destroy a s) as [s1|]; [simpl|done].
  by destruct (SharedPtr_copy a b s1).
Qed.

(** X14: [Init] on a live handle is its destruction followed by
    construction from the pointer on null storage: whatever the handle held
    is released as its destructor would release it. *)
Theorem Init_is_destroy_then_construct (a Q rq : N) (s : Store) :
  Init a Q rq s = run [CallDestroy a; CallFromPtr (mk NULL NULL) a Q rq] s.
Proof.
  rewrite Init_unfold. simpl.
  destruct (destroy a s) as [s1|]; [simpl|done].
  by destruct (SharedPtr_ptr (mk NULL NULL) a Q rq s1).
Qed.

(** *** The example programs are valid *)

Ltac next_store :=
  let s := fresh "s" in let H := fresh "H" in
  intros s H; vm_compute in H; injection H as <-.

Ltac concrete := vm_compute; reflexivity.

Lemma first_handle_valid (junk : t) (a P rc : N) (objs : gset N) :
  m_Ptr junk = NULL -> P <> NULL -> P ∈ objs ->
  valid_call (CallFromPtr junk a P rc) (start objs).
Proof.
  intros Hj HP Hin. unfold valid_call, start, initial, room, UINT_MODULUS. simpl.
  split; [done|]. split; [apply lookup_empty|]. split; [rewrite map_size_empty; lia|].
  split; [done|]. split; [done|]. split; [|apply lookup_empty].
  intros (x & h & Hx & _). simpl in Hx. by rewrite lookup_empty in Hx.
Qed.

Lemma two_handles_valid : valid_run two_handles (start {[ 7%N ]}).
Proof.
  split; [apply first_handle_valid; [done|done|by apply elem_of_singleton]|]. next_store.
  split; [split; [concrete|split; [eexists; concrete|concrete]]|]. next_store.
  exact I.
Qed.

Lemma shared_store_wf : wf shared_store.
Proof.
  destruct (run_safe two_handles (start {[ 7%N ]}) (wf_start _) two_handles_valid)
    as (s & Hrun & Hwf & _).
  assert (Heq : run two_handles (start {[ 7%N ]}) = Some shared_store) by concrete.
  rewrite Heq in Hrun. by injection Hrun as <-.
Qed.

Lemma demo_valid : valid_run demo (start {[ 7%N ]}).
Proof.
  split; [apply first_handle_valid; [done|done|by apply elem_of_singleton]|]. next_store.
  split; [split; [concrete|split; [eexists; concrete|concrete]]|]. next_store.
  split; [split; concrete|]. next_store.
  split; [split; eexists; concrete|]. next_store.
  split; [eexists; concrete|]. next_store.
  split; [eexists; concrete|]. next_store.
  split; [eexists; concrete|]. next_store.
  exact I.
Qed.

Lemma plain_dtor_is_plain : plain plain_dtor.
Proof. intros p s. reflexivity. Qed.

Lemma valid_program_is_safe_witness :
  plain plain_dtor /\
  exists s', run_with plain_dtor demo (start {[ 7%N ]}) = Some s' /\ NoDup (deleted s').
Proof.
  split; [exact (fun p s => eq_refl)|].
  destruct (valid_program_is_safe plain_dtor demo (start {[ 7%N ]})
              (fun p s => eq_refl) (wf_start _)) as (s' & Hrun & _ & Hnd & _).
  - apply (valid_run_with_plain plain_dtor demo plain_dtor_is_plain). exact demo_valid.
  - by exists s'.
Defined.

Lemma all_handles_gone_witness :
  run_with plain_dtor demo (start {[ 7%N ]}) = Some (mkStore ∅ ∅ ∅ [7%N]) /\
  destructions 7 (mkStore ∅ ∅ ∅ [7%N]) = 1.
Proof.
  assert (Hrun : run_with plain_dtor demo (start {[ 7%N ]}) = Some (mkStore ∅ ∅ ∅ [7%N]))
    by concrete.
  split; [exact Hrun|].
  assert (Hvalid : valid_run_with plain_dtor demo (start {[ 7%N ]})).
  { apply (valid_run_with_plain plain_dtor demo plain_dtor_is_plain). exact demo_valid. }
  destruct (all_handles_gone plain_dtor {[ 7%N ]} demo _ (fun p s => eq_refl)
              Hvalid Hrun eq_refl) as (_ & Honce & _).
  apply Honce. simpl. by apply list_elem_of_singleton.
Defined.


Lemma assignment_is_destroy_then_copy_witness :
  (102%N <> 101%N) /\
  run [CallAssign 102 101] (set_handle 102 (mk NULL NULL) shared_store)
  = run [CallDestroy 102; CallCopy 102 101] (set_handle 102 (mk NULL NULL) shared_store).
Proof.
  split; [discriminate|].
  exact (assignment_is_destroy_then_copy 102 101 _ ltac:(discriminate)).
Defined.

(** *** Round trips and edge cases *)

Lemma store_eta (s : Store) :
  s = mkStore (handles s) (counters s) (pointees s) (deleted s).
Proof. by destruct s. Qed.


(** X15: copy construction followed by the destruction of the copy gives
    the store back as it was, whether the source is empty or not. *)
Theorem copy_then_destroy_restores (a b : N) (s : Store) :
  wf s -> handles s !! a = None -> is_Some (handles s !! b) -> room s ->
  run [CallCopy a b; CallDestroy a] s = Some s.
Proof.
  intros Hwf Ha [h Hb] Hr. simpl.
  destruct (decide (m_Ptr h = NULL)) as [Hnull|HP].
  - unfold SharedPtr_copy. rewrite (share_empty a b h s Hb Hnull). simpl.
    unfold destroy. rewrite (Reset_empty a (mk NULL NULL)); [|apply lookup_insert_eq|done].
    simpl. unfold drop_handle. simpl.
    rewrite delete_insert_eq, (delete_id _ _ Ha). by rewrite <- store_eta.
  - rewrite (handle_eta h) in Hb. set (P := m_Ptr h) in *. set (rc := m_RefCount h) in *.
    destruct (wf_owner s Hwf b _ Hb HP) as [_ Hc]. simpl in Hc.
    pose proof (holders_size_le P rc s) as Hle. unfold room in Hr.
    assert (Hpos : 1 <= size (holders P rc s)).
    { assert (size (holders P rc s) <> 0); [|lia].
      intros H0. apply size_empty_inv in H0.
      assert (Hin : b ∈ holders P rc s) by (by apply elem_of_holders).
      rewrite H0 in Hin. by apply not_elem_of_empty in Hin. }
    rewrite (SharedPtr_copy_increments a b P rc _ s Hb HP Hc) by lia. simpl.
    rewrite (destroy_not_last a P rc (Z.of_nat (size (holders P rc s)) + 1));
      simpl; [|apply lookup_insert_eq|done|apply lookup_insert_eq|lia].
    rewrite delete_insert_eq, (delete_id _ _ Ha), insert_insert_eq.
    replace (Z.of_nat (size (holders P rc s)) + 1 - 1)%Z
      with (Z.of_nat (size (holders P rc s))) by lia.
    rewrite (insert_id _ _ _ Hc). by rewrite <- store_eta.
Qed.

Lemma copy_then_destroy_restores_witness :
  handles shared_store !! 102%N = None /\
  run [CallCopy 102 100; CallDestroy 102] shared_store = Some shared_store.
Proof.
  split; [reflexivity|].
  apply (copy_then_destroy_restores 102 100 shared_store shared_store_wf).
  - reflexivity.
  - eexists. reflexivity.
  - vm_compute. reflexivity.
Defined.



(** X17: where the destructors of the pointees are plain, assigning an
    empty handle over a handle releases what the target held as its
    destructor would, and leaves the target empty. *)
Theorem assign_empty_releases (dtor : N -> Store -> option Store) (a b : N) (hb : t)
    (s : Store) :
  plain dtor ->
  wf s -> a <> b -> is_Some (handles s !! a) ->
  handles s !! b = Some hb -> operator_bool hb = false ->
  exists s1, destroy_with dtor a s = Some s1 /\
             operator_assign_with dtor a b s = Some (set_handle a (mk NULL NULL) s1).
Proof.
  intros Hplain Hwf Hne Ha Hb Hempty.
  destruct (destroy_safe a s Hwf Ha) as (s1 & Hd & _ & _ & Hh1 & _).
  exists s1.
  pose proof (exec_with_plain dtor (CallDestroy a) s Hplain) as Hdw.
  pose proof (exec_with_plain dtor (CallAssign a b) s Hplain) as Haw.
  simpl in Hdw, Haw. rewrite Hdw, Haw. split; [done|].
  rewrite (operator_assign_unfold a b s Hne), Hd. simpl.
  apply (share_empty a b hb).
  - rewrite Hh1. by rewrite lookup_delete_ne.
  - unfold operator_bool in Hempty. by destruct (N.eqb_spec (m_Ptr hb) NULL).
Qed.

Lemma assign_empty_releases_witness :
  let s := set_handle 102 (mk NULL NULL) (mkStore {[ 100%N := mk 7 50 ]} {[ 50%N := 1%Z ]} {[ 7%N ]} []) in
  exists s', operator_assign_with plain_dtor 100 102 s = Some s' /\
             handles s' !! 100%N = Some (mk NULL NULL) /\ deleted s' = [7%N].
Proof.
  intros s.
  assert (Hwf : wf s).
  { destruct (run_safe [CallFromPtr (mk NULL NULL) 100 7 50; CallDefault 102]%N
                (start {[ 7%N ]}) (wf_start _)) as (s0 & Hrun & Hwf & _).
    - split; [apply first_handle_valid; [done|done|by apply elem_of_singleton]|]. next_store.
      split; [split; concrete|]. next_store. exact I.
    - assert (Heq : run [CallFromPtr (mk NULL NULL) 100 7 50; CallDefault 102]%N
                      (start {[ 7%N ]}) = Some s) by concrete.
      rewrite Heq in Hrun. by injection Hrun as <-. }
  destruct (assign_empty_releases plain_dtor 100 102 (mk NULL NULL) s (fun p s => eq_refl) Hwf)
    as (s1 & Hd & Hassign);
    [discriminate | eexists; reflexivity | reflexivity | reflexivity |].
  eexists. split; [exact Hassign|].
  assert (Hs1 : destroy_with plain_dtor 100 s
                = Some (mkStore {[ 102%N := mk NULL NULL ]} ∅ ∅ [7%N])) by concrete.
  rewrite Hs1 in Hd. injection Hd as <-. split; reflexivity.
Defined.

(** X18: a handle constructed from a null pointer is empty, yet a counter
    cell is allocated for it, and its destructor does not free the cell:
    after construction and destruction the store has one more counter
    cell, holding 1, and is otherwise as before. *)
Theorem null_pointer_leaks_counter (a rc : N) (s : Store) :
  exists s1 s2,
    SharedPtr_ptr (mk NULL NULL) a NULL rc s = Some s1 /\
    (exists h, handles s1 !! a = Some h /\ operator_bool h = false) /\
    destroy a s1 = Some s2 /\
    counters s2 = <[rc := 1%Z]> (counters s) /\
    handles s2 = delete a (handles s) /\
    pointees s2 = pointees s /\ deleted s2 = deleted s.
Proof.
  eexists. eexists. split; [apply SharedPtr_ptr_on_null_storage|].
  split; [exists (mk NULL rc); simpl; by rewrite lookup_insert_eq|].
  split.
  - unfold destroy. rewrite (Reset_empty a (mk NULL rc)); simpl;
      [reflexivity | apply lookup_insert_eq | done].
  - simpl. by rewrite delete_insert_eq.
Qed.




